(** * Session lifecycle and outbound-call resilience of the inoxdev backend

  A shallow embedding of

  - [src/utils/gemini.js]: the sliding-window [rateLimiter] and the retry
    loop of [generateProjectSuggestions];
  - [src/routes/auth.js]: the [/login], [/refresh], [/logout] and
    [/logout-all] handlers, with the [User] methods of [src/server.js];
  - the [auth] and [authorize] middlewares ([middleware/auth.js]).

  Clock readings ([Date.now()]) are integers in milliseconds and are
  passed in explicitly; the [users] collection is a finite map from
  [_id] to document; the transport ([axios.post]) is a script of
  outcomes, one per call. *)

From Stdlib Require Import ZArith Lia.
From stdpp Require Import gmap strings list fin_maps pretty.

(** ** The sliding-window rate limiter ([src/utils/gemini.js], lines 8-31) *)

Module RateLimiter.

Local Open Scope Z_scope.

(** [maxRequests: 60], compared against [this.requests.length]. *)
Definition maxRequests : nat := 60.

(** [windowMs: 60 * 1000]. *)
Definition windowMs : Z := 60 * 1000.

(** [this.requests.filter(time => now - time < this.windowMs)]. *)
Definition prune (now : Z) (requests : list Z) : list Z :=
  filter (λ time, now - time < windowMs) requests.

(** [canMakeRequest()]: the returned boolean and the new [this.requests]. *)
Definition canMakeRequest (now : Z) (requests : list Z) : bool * list Z :=
  let requests := prune now requests in
  if (maxRequests <=? length requests)%nat
  then (false, requests)
  else (true, requests ++ [now]).

(** [getRetryDelay()]; [oldestRequest ? ... : 0] is falsy for a missing
    entry and for the number [0]. *)
Definition getRetryDelay (now : Z) (requests : list Z) : Z :=
  match requests with
  | [] => 0
  | oldestRequest :: _ =>
      if oldestRequest =? 0 then 0 else windowMs - (now - oldestRequest)
  end.

(** [Math.ceil(x / k)] on integers. *)
Definition ceil_div (x k : Z) : Z := - ((- x) / k).

(** The error thrown by the guard that opens every exported function:
    [Rate limit exceeded. Please try again in ${secs} seconds.] *)
Inductive RateLimitError := RateLimitExceeded (secs : Z).

(** [if (!rateLimiter.canMakeRequest()) { const retryDelay =
    rateLimiter.getRetryDelay(); throw ... }].  [now] is the clock read by
    [canMakeRequest], [now'] the one read by [getRetryDelay]. *)
Definition guard (now now' : Z) (requests : list Z)
  : option RateLimitError * list Z :=
  let '(ok, requests) := canMakeRequest now requests in
  if ok then (None, requests)
  else (Some (RateLimitExceeded (ceil_div (getRetryDelay now' requests) 1000)),
        requests).

(** A sequence of admission checks, one per clock reading. *)
Fixpoint issue (times : list Z) (requests : list Z) : list bool * list Z :=
  match times with
  | [] => ([], requests)
  | now :: times =>
      let '(ok, requests) := canMakeRequest now requests in
      let '(oks, requests) := issue times requests in
      (ok :: oks, requests)
  end.

(** The store after a history of checks, from the initial [requests: []]. *)
Definition after (history : list Z) : list Z := (issue history []).2.

End RateLimiter.

(** ** The retrying executor ([generateProjectSuggestions],
     [src/utils/gemini.js], lines 34-137) *)

Module Gemini.
Import RateLimiter.
Local Open Scope Z_scope.

(** The part of the completion response the code inspects:
    [result.candidates[0].content.parts[0].text]. *)
Record Part := { text : string }.
Record Content := { parts : option (list Part) }.
Record Candidate := { content : option Content }.
Record Data := { candidates : option (list Candidate) }.

(** An [axios] response: [response.status], [response.data]. *)
Record Response := { status : Z; data : Data }.

(** A thrown JavaScript error: [error.message], [error.response?.status]
    and [error.code]. *)
Record Error := {
  message : string;
  response_status : option Z;
  code : option string
}.

(** [new Error(message)]. *)
Definition newError (message : string) : Error :=
  {| message := message; response_status := None; code := None |}.

(** One [await axios.post(...)]: it resolves with a response or rejects
    with an error. *)
Inductive Outcome :=
| Resolved (response : Response)
| Rejected (error : Error).

(** What the function does besides returning: calls of the transport,
    sleeps ([setTimeout]) and log lines. *)
Inductive Event :=
| Post
| Sleep (delay : Z)
| LogWarn (delay : Z)
| LogInfo
| LogError (message : string).

Definition maxRetries : nat := 3.
Definition baseDelay : Z := 1000.

(** The [while (retryCount < maxRetries)] loop, lines 69-95.  [script]
    holds the outcomes of the successive [axios.post] calls; the loop
    yields its events and either the error it throws or the value of
    [response] when it is left.  [None]: the script is used up before the
    loop ends. *)
Fixpoint retryLoop (script : list Outcome) (retryCount : nat)
    (response : option Response)
  : option (list Event * (Error + option Response)) :=
  if (retryCount <? maxRetries)%nat then
    match script with
    | [] => None
    | Resolved response :: script =>
        if status response =? 200 then Some ([Post], inr (Some response))
        else
          '(events, exit) ← retryLoop script retryCount (Some response);
          Some (Post :: events, exit)
    | Rejected error :: script =>
        if bool_decide (response_status error = Some 429) then
          let retryCount := S retryCount in
          let delay := baseDelay * 2 ^ (Z.of_nat retryCount - 1) in
          if (retryCount <? maxRetries)%nat then
            '(events, exit) ← retryLoop script retryCount response;
            Some (Post :: LogWarn delay :: Sleep delay :: events, exit)
          else Some ([Post; LogWarn delay], inl error)
        else Some ([Post], inl error)
    end
  else Some ([], inr response).

(** Lines 103-107: the text of the first part of the first candidate. *)
Definition suggestions (result : Data) : option string :=
  match candidates result with
  | Some (candidate :: _) =>
      match content candidate with
      | Some content =>
          match parts content with
          | Some (part :: _) => Some (text part)
          | _ => None
          end
      | None => None
      end
  | _ => None
  end.

(** Lines 97-114, after the loop. *)
Definition afterLoop (response : option Response)
  : list Event * (Error + string) :=
  match response with
  | Some response =>
      if status response =? 200 then
        match suggestions (data response) with
        | Some text => ([LogInfo], inr text)
        | None =>
            ([LogError "Unexpected Gemini API response structure:"],
             inl (newError "Invalid response structure from Gemini API"))
        end
      else
        ([], inl (newError
           "Failed to get a successful response from Gemini API after retries"))
  | None =>
      ([], inl (newError
         "Failed to get a successful response from Gemini API after retries"))
  end.

(** The four errors the outer [catch] rethrows, lines 123-135. *)
Definition ServiceUnavailable : Error :=
  newError "Service temporarily unavailable due to high demand. Please try again in a few minutes.".
Definition AccessDenied : Error :=
  newError "API access denied. Please check API key configuration.".
Definition RequestTimeout : Error :=
  newError "Request timeout. Please try again.".
Definition GenerationFailed : Error :=
  newError "Failed to generate project suggestions. Please try again later.".

(** The outer [catch (error)], lines 116-136, without its log line. *)
Definition rethrow (error : Error) : Error :=
  if bool_decide (response_status error = Some 429) then ServiceUnavailable
  else if bool_decide (response_status error = Some 403) then AccessDenied
  else if bool_decide (code error = Some "ECONNABORTED"%string
                       ∨ code error = Some "ETIMEDOUT"%string)
  then RequestTimeout
  else GenerationFailed.

(** The error of the rate-limit guard, lines 37-40. *)
Definition rateLimitError (e : RateLimitError) : Error :=
  let 'RateLimitExceeded secs := e in
  newError ("Rate limit exceeded. Please try again in "
            +:+ pretty secs +:+ " seconds.").

(** The [try] block, lines 36-114. *)
Definition attempt (now now' : Z) (script : list Outcome) (requests : list Z)
  : option (list Event * (Error + string)) * list Z :=
  match guard now now' requests with
  | (Some e, requests) => (Some ([], inl (rateLimitError e)), requests)
  | (None, requests) =>
      (match retryLoop script 0 None with
       | None => None
       | Some (events, inl error) => Some (events, inl error)
       | Some (events, inr response) =>
           let '(events', result) := afterLoop response in
           Some (events ++ events', result)
       end, requests)
  end.

(** [generateProjectSuggestions]: the events, the rejection or the
    returned text, and the new store of the rate limiter. *)
Definition generateProjectSuggestions (now now' : Z) (script : list Outcome)
    (requests : list Z)
  : option (list Event * (Error + string)) * list Z :=
  match attempt now now' script requests with
  | (Some (events, inl error), requests) =>
      (Some (events ++ [LogError "Gemini API error:"], inl (rethrow error)),
       requests)
  | outcome => outcome
  end.

(** Number of transport calls and total time slept in a run. *)
Fixpoint attempts (events : list Event) : nat :=
  match events with
  | [] => 0%nat
  | Post :: events => S (attempts events)
  | _ :: events => attempts events
  end.

Fixpoint slept (events : list Event) : Z :=
  match events with
  | [] => 0
  | Sleep delay :: events => delay + slept events
  | _ :: events => slept events
  end.

(** Line 85 as a function of the incremented [retryCount]:
    [baseDelay * Math.pow(2, retryCount - 1)]. *)
Definition backoff (retryCount : nat) : Z :=
  baseDelay * 2 ^ (Z.of_nat retryCount - 1).

(** The failures the loop retries: line 82,
    [error.response?.status === 429]. *)
Definition transient (error : Error) : Prop :=
  response_status error = Some 429.

(** A connect or read timeout as [axios] reports it: no response, code
    [ECONNABORTED] or [ETIMEDOUT] (the codes line 131 tests). *)
Definition timeout (error : Error) : Prop :=
  response_status error = None
  ∧ (code error = Some "ECONNABORTED"%string
     ∨ code error = Some "ETIMEDOUT"%string).

End Gemini.

(** ** Tokens: the [jsonwebtoken] library, symbolically

  A signed token is its claims, the key it was signed with and its
  [iat]/[exp] dates (in seconds); any other cookie or header value is an
  opaque string.  Two tokens are the same string exactly when they are
  the same term. *)

Module Jwt.
Local Open Scope Z_scope.

(** The claims the code signs: [{ userId, email, role }] for access
    tokens, [{ userId }] for refresh tokens. *)
Record Payload := {
  userId : positive;
  claim_email : option string;
  claim_role : option string
}.

Inductive Token :=
| Signed (key : string) (payload : Payload) (iat exp : Z)
| Opaque (raw : string).

Inductive JwtError := JsonWebTokenError | TokenExpiredError.

#[global] Instance Payload_eq_dec : EqDecision Payload.
Proof. solve_decision. Defined.
#[global] Instance Token_eq_dec : EqDecision Token.
Proof. solve_decision. Defined.

(** [jwt.sign(payload, key, { expiresIn })] at clock reading [now] (ms). *)
Definition sign (payload : Payload) (key : string) (expiresIn now : Z) : Token :=
  Signed key payload (now / 1000) (now / 1000 + expiresIn).

(** [jwt.verify(token, key)] at clock reading [now]: the signature is
    checked first, then the expiry ([clockTimestamp >= exp] fails). *)
Definition verify (token : Token) (key : string) (now : Z)
  : JwtError + Payload :=
  match token with
  | Opaque _ => inl JsonWebTokenError
  | Signed signer payload _ exp =>
      if bool_decide (signer = key) then
        if exp <=? now / 1000 then inl TokenExpiredError else inr payload
      else inl JsonWebTokenError
  end.

End Jwt.

(** ** The session routes and middlewares *)

Module Session.
Import Jwt.
Local Open Scope Z_scope.

(** [process.env]. [JWT_EXPIRES_IN] in seconds when set. *)
Record Env := {
  JWT_SECRET : string;
  JWT_REFRESH_SECRET : string;
  JWT_EXPIRES_IN : option Z
}.

(** [userSchema] ([src/server.js], lines 771-813). The [_id] of a document
    is its key in the collection. *)
Record RefreshToken := { token : Token; createdAt : Z }.

Record User := {
  name : string;
  email : string;
  password : string;
  role : string;
  isActive : bool;
  lastLogin : option Z;
  refreshTokens : list RefreshToken
}.

Definition set_lastLogin (date : option Z) (user : User) : User :=
  {| name := name user; email := email user; password := password user;
     role := role user; isActive := isActive user; lastLogin := date;
     refreshTokens := refreshTokens user |}.

Definition set_refreshTokens (tokens : list RefreshToken) (user : User) : User :=
  {| name := name user; email := email user; password := password user;
     role := role user; isActive := isActive user;
     lastLogin := lastLogin user; refreshTokens := tokens |}.

(** The [users] collection and the log. *)
Record World := {
  users : gmap positive User;
  logged : list (string * string)
}.

(** What a handler sends: status, JSON body and cookie operation. *)
Record Profile := {
  profile_id : positive;
  profile_name : string;
  profile_email : string;
  profile_role : string
}.

Inductive Body :=
| Failure (message : string)
| Success (message : string)
| LoggedIn (message : string) (token : Token) (user : Profile)
| Refreshed (token : Token) (user : Profile).

Inductive Cookie :=
| NoCookie
| SetRefreshToken (refreshToken : Token)
| ClearRefreshToken.

Record Response := { status : Z; body : Body; cookie : Cookie }.

Definition fail (status : Z) (message : string) : Response :=
  {| status := status; body := Failure message; cookie := NoCookie |}.

(** [req.user] as the [auth] middleware sets it. *)
Record ReqUser := {
  req_userId : positive;
  req_email : string;
  req_role : string;
  req_name : string
}.

(** A middleware answers or calls [next()]. *)
Inductive Step (A : Type) :=
| Respond (response : Response)
| Next (req : A).
Arguments Respond {A} response.
Arguments Next {A} req.

(** *** Handlers as computations over the world that may throw *)

(** What a handler's [try] block can throw: an error of [jwt.verify], or
    the [TypeError] of reading a property of [undefined]. *)
Inductive Exception :=
| JwtThrown (error : JwtError)
| TypeErrorThrown.

Definition M (A : Type) : Type := World → (Exception + A) * World.

Definition ret {A} (a : A) : M A := λ w, (inr a, w).

Definition bind {A B} (m : M A) (k : A → M B) : M B :=
  λ w, match m w with
       | (inl e, w) => (inl e, w)
       | (inr a, w) => k a w
       end.

Definition throw {A} (e : Exception) : M A := λ w, (inl e, w).

Definition try_catch {A} (m : M A) (handler : Exception → M A) : M A :=
  λ w, match m w with
       | (inl e, w) => handler e w
       | (inr a, w) => (inr a, w)
       end.

Declare Scope session_scope.
Delimit Scope session_scope with session.
Notation "x <- m ;; k" := (bind m (λ x, k))
  (at level 100, m at next level, right associativity) : session_scope.
Notation "m ;;; k" := (bind m (λ _, k))
  (at level 100, right associativity) : session_scope.
Local Open Scope session_scope.

(** [logger.info], [logger.error]. *)
Definition logger (level message : string) : M unit :=
  λ w, (inr tt, {| users := users w; logged := logged w ++ [(level, message)] |}).

(** [jwt.verify] inside a handler: an invalid token throws. *)
Definition jwt_verify (token : Token) (key : string) (now : Z) : M Payload :=
  match verify token key now with
  | inl error => throw (JwtThrown error)
  | inr decoded => ret decoded
  end.

(** [req.cookies] as the handlers find it: the object a cookie-parsing
    middleware left on the request, of which they read the [refreshToken]
    property ([sent], the token of the [Cookie] header, if any); without
    such a middleware [req.cookies] is [undefined], here [None]. *)
Definition req_cookies (cookieParser : bool) (sent : option Token)
  : option (option Token) :=
  if cookieParser then Some sent else None.

(** The middlewares [src/server.js] installs before the routers (lines
    96-206): [helmet], the rate limiters, [compression], [morgan], [cors],
    [express.json] and [express.urlencoded]; none of them parses
    cookies. *)
Definition server_cookieParser : bool := false.

(** [User.findOne(filter)]: the first document the filter accepts. *)
Definition findOne (filter : positive → User → bool) : M (option (positive * User)) :=
  λ w, (inr (List.find (λ doc, filter doc.1 doc.2) (map_to_list (users w))), w).

(** [User.findById(id)]. *)
Definition findById (id : positive) : M (option User) :=
  λ w, (inr (users w !! id), w).

(** [User.findByIdAndUpdate(id, update)]. *)
Definition findByIdAndUpdate (id : positive) (update : User → User) : M unit :=
  λ w, (inr tt, {| users := alter update id (users w); logged := logged w |}).

(** [user.save()] of a loaded document. *)
Definition save (id : positive) (user : User) : M unit :=
  λ w, (inr tt, {| users := <[id := user]> (users w); logged := logged w |}).

Section Routes.
(** [bcrypt.compare(password, hash)]. *)
Variable bcrypt_compare : string → string → bool.
Variable env : Env.
(** The clock reading of the request. *)
Variable now : Z.

(** [userSchema.methods.comparePassword]. *)
Definition comparePassword (user : User) (candidate : string) : bool :=
  bcrypt_compare candidate (password user).

(** [userSchema.methods.generateAuthToken]; [expiresIn] defaults to
    ['1h']. *)
Definition generateAuthToken (id : positive) (user : User) : Token :=
  sign {| userId := id; claim_email := Some (email user);
          claim_role := Some (role user) |}
       (JWT_SECRET env) (default 3600 (JWT_EXPIRES_IN env)) now.

(** [userSchema.methods.generateRefreshToken]: signs for ['7d'] and
    pushes the token on the loaded document. *)
Definition generateRefreshToken (id : positive) (user : User) : Token * User :=
  let refreshToken :=
    sign {| userId := id; claim_email := None; claim_role := None |}
         (JWT_REFRESH_SECRET env) 604800 now in
  (refreshToken,
   set_refreshTokens
     (refreshTokens user ++ [ {| token := refreshToken; createdAt := now |} ])
     user).

Definition profile (id : positive) (user : User) : Profile :=
  {| profile_id := id; profile_name := name user;
     profile_email := email user; profile_role := role user |}.

(** [!refreshToken]: a missing cookie or the empty string. *)
Definition missing (cookie : option Token) : bool :=
  match cookie with
  | None => true
  | Some (Opaque EmptyString) => true
  | Some _ => false
  end.

(** [POST /api/auth/login], lines 137-194 (after input validation). *)
Definition login (email' password' : string) : M Response :=
  try_catch
    (user <- findOne (λ _ user,
               bool_decide (email user = email') && isActive user) ;;
     match user with
     | None => ret (fail 401 "Invalid credentials")
     | Some (id, user) =>
         if negb (comparePassword user password')
         then ret (fail 401 "Invalid credentials")
         else
           let accessToken := generateAuthToken id user in
           let '(refreshToken, user) := generateRefreshToken id user in
           let user := set_lastLogin (Some now) user in
           save id user ;;;
           logger "info" ("User logged in: " +:+ email') ;;;
           ret {| status := 200;
                  body := LoggedIn "Login successful" accessToken
                            (profile id user);
                  cookie := SetRefreshToken refreshToken |}
     end)
    (λ error,
       logger "error" "Login error:" ;;;
       ret (fail 500 "Login failed")).

(** [POST /api/auth/refresh], lines 200-249. [cookies] is [req.cookies]:
    reading [req.cookies.refreshToken] of [undefined] throws inside the
    [try]. *)
Definition refresh (cookies : option (option Token)) : M Response :=
  try_catch
    (match cookies with
     | None => throw TypeErrorThrown
     | Some cookie =>
         match cookie with
         | Some refreshToken =>
             if missing cookie then ret (fail 401 "Refresh token not provided")
             else
               decoded <- jwt_verify refreshToken (JWT_REFRESH_SECRET env) now ;;
               user <- findOne (λ id user,
                         bool_decide (id = userId decoded)
                         && bool_decide (refreshToken ∈ token <$> refreshTokens user)
                         && isActive user) ;;
               match user with
               | None => ret (fail 401 "Invalid refresh token")
               | Some (id, user) =>
                   let accessToken := generateAuthToken id user in
                   ret {| status := 200;
                          body := Refreshed accessToken (profile id user);
                          cookie := NoCookie |}
               end
         | None => ret (fail 401 "Refresh token not provided")
         end
     end)
    (λ error,
       logger "error" "Token refresh error:" ;;;
       ret (fail 401 "Invalid refresh token")).

(** [$pull: { refreshTokens: { token: refreshToken } }]. *)
Definition pull (refreshToken : Token) (user : User) : User :=
  set_refreshTokens
    (filter (λ entry, token entry ≠ refreshToken) (refreshTokens user)) user.

(** [POST /api/auth/logout], lines 254-282, behind [auth]. [cookies] is
    [req.cookies], as for [/refresh]. *)
Definition logout (user : ReqUser) (cookies : option (option Token))
  : M Response :=
  try_catch
    (match cookies with
     | None => throw TypeErrorThrown
     | Some cookie =>
         match cookie with
         | Some refreshToken =>
             if missing cookie then ret tt
             else findByIdAndUpdate (req_userId user) (pull refreshToken)
         | None => ret tt
         end
     end ;;;
     logger "info" ("User logged out: " +:+ req_email user) ;;;
     ret {| status := 200; body := Success "Logout successful";
            cookie := ClearRefreshToken |})
    (λ error,
       logger "error" "Logout error:" ;;;
       ret (fail 500 "Logout failed")).

(** [POST /api/auth/logout-all], lines 287-311, behind [auth]. *)
Definition logout_all (user : ReqUser) : M Response :=
  try_catch
    (findByIdAndUpdate (req_userId user) (set_refreshTokens []) ;;;
     logger "info" ("User logged out from all devices: " +:+ req_email user) ;;;
     ret {| status := 200; body := Success "Logged out from all devices";
            cookie := ClearRefreshToken |})
    (λ error,
       logger "error" "Logout all error:" ;;;
       ret (fail 500 "Logout failed")).

(** The [auth] middleware ([middleware/auth.js], lines 13-68).
    [header] is the [Authorization] header without its [Bearer ]
    prefix. *)
Definition auth (header : option Token) : M (Step ReqUser) :=
  try_catch
    (match header with
     | Some accessToken =>
         if missing header
         then ret (Respond (fail 401 "Access denied. No token provided."))
         else
           decoded <- jwt_verify accessToken (JWT_SECRET env) now ;;
           user <- findById (userId decoded) ;;
           match user with
           | Some user =>
               if isActive user then
                 ret (Next {| req_userId := userId decoded;
                              req_email := email user;
                              req_role := role user;
                              req_name := name user |})
               else ret (Respond
                      (fail 401 "Invalid token. User not found or inactive."))
           | None =>
               ret (Respond
                      (fail 401 "Invalid token. User not found or inactive."))
           end
     | None => ret (Respond (fail 401 "Access denied. No token provided."))
     end)
    (λ error,
       logger "error" "Auth middleware error:" ;;;
       match error with
       | JwtThrown JsonWebTokenError => ret (Respond (fail 401 "Invalid token."))
       | JwtThrown TokenExpiredError => ret (Respond (fail 401 "Token expired."))
       | TypeErrorThrown => ret (Respond (fail 500 "Authentication failed."))
       end).

End Routes.

(** The [authorize] middleware ([middleware/auth.js], lines 71-89):
    [roles.length && !roles.includes(req.user.role)] answers 403. *)
Definition authorize (roles : list string) (user : option ReqUser) : Step unit :=
  match user with
  | None => Respond (fail 401 "Authentication required.")
  | Some user =>
      if negb (length roles =? 0)%nat && negb (bool_decide (req_role user ∈ roles))
      then Respond (fail 403 "Insufficient permissions.")
      else Next tt
  end.

End Session.

(** Sample values: errors as [axios] reports them, a well-formed answer. *)

Module Sample.
Import Gemini.
Local Open Scope Z_scope.

Definition tooManyRequests : Error :=
  {| message := "Request failed with status code 429";
     response_status := Some 429; code := Some "ERR_BAD_REQUEST"%string |}.

Definition forbidden : Error :=
  {| message := "Request failed with status code 403";
     response_status := Some 403; code := Some "ERR_BAD_REQUEST"%string |}.


Definition unavailable : Error :=
  {| message := "Request failed with status code 503";
     response_status := Some 503; code := Some "ERR_BAD_RESPONSE"%string |}.

Definition timedOut : Error :=
  {| message := "timeout of 30000ms exceeded";
     response_status := None; code := Some "ECONNABORTED"%string |}.

Definition answer : Response :=
  {| status := 200;
     data := {| candidates :=
       Some [ {| content :=
         Some {| parts := Some [ {| text := "Use our cloud services." |} ] |} |} ] |} |}.

(** Sixty clock readings, one per second, from 1 s on. *)
Definition minute : list Z := (λ i, 1000 * Z.of_nat i) <$> seq 1 60.

Import Jwt Session.

Definition env : Env :=
  {| JWT_SECRET := "access-secret"; JWT_REFRESH_SECRET := "refresh-secret";
     JWT_EXPIRES_IN := None |}.

(** A stand-in for [bcrypt]: the hash is the secret behind a salt prefix. *)
Definition bcrypt_compare (candidate hash : string) : bool :=
  bool_decide (hash = "$2b$12$salt." +:+ candidate).

(** The clock reading at which the sample tokens were issued. *)
Definition issued : Z := 5000000.

Definition alice (tokens : list RefreshToken) : User :=
  {| name := "Alice"; email := "a@b.com";
     password := "$2b$12$salt.Secret#123"; role := "admin";
     isActive := true; lastLogin := None; refreshTokens := tokens |}.

Definition bob : User :=
  {| name := "Bob"; email := "bob@b.com";
     password := "$2b$12$salt.Secret#456"; role := "employee";
     isActive := false; lastLogin := None; refreshTokens := [] |}.

Definition aliceRefresh : Token := (generateRefreshToken env issued 1 (alice [])).1.
Definition aliceAccess : Token := generateAuthToken env issued 1 (alice []).

Definition aliceReq : ReqUser :=
  {| req_userId := 1; req_email := "a@b.com"; req_role := "admin";
     req_name := "Alice" |}.

(** Alice is logged in on one device, Bob is deactivated. *)
Definition world : World :=
  {| users := {[ 1%positive := (generateRefreshToken env issued 1 (alice [])).2;
                 2%positive := bob ]};
     logged := [] |}.

(** The same collection after Alice's token was revoked. *)
Definition revoked : World :=
  {| users := {[ 1%positive := alice []; 2%positive := bob ]}; logged := [] |}.

(** Eight days after [issued], in milliseconds: past the 7-day expiry. *)
Definition eightDaysLater : Z := issued + 8 * 86400 * 1000.

End Sample.

(** ** Bookkeeping over a history of admission checks *)

Module Admission.
Import RateLimiter.
Local Open Scope Z_scope.

(** The clock readings of the checks of [times] that [canMakeRequest]
    answered with [true], starting from the store [requests]. *)
Fixpoint admitted (times : list Z) (requests : list Z) : list Z :=
  match times with
  | [] => []
  | now :: times =>
      let '(ok, requests) := canMakeRequest now requests in
      if ok then now :: admitted times requests else admitted times requests
  end.

End Admission.

(** ** The single-call functions of [src/utils/gemini.js]:
       [generateContent], [analyzeTechStack], [generateSEOContent] *)

Module Completions.
Import RateLimiter Gemini.
Local Open Scope Z_scope.

(** What these functions throw: an error object, or the [TypeError] of
    reading a property of [undefined]. *)
Inductive Thrown :=
| Raised (error : Error)
| TypeError.

(** Lines 180-186 (and 231-237, 281-287): under [response.status === 200
    && response.data.candidates && response.data.candidates.length > 0]
    the text is read as [candidates[0].content.parts[0].text], unguarded;
    otherwise [Invalid response from Gemini API] is thrown. *)
Definition readAnswer (response : Response) : Thrown + string :=
  if status response =? 200 then
    match candidates (data response) with
    | Some (candidate :: _) =>
        match content candidate with
        | Some content =>
            match parts content with
            | Some (part :: _) => inr (text part)
            | _ => inl TypeError
            end
        | None => inl TypeError
        end
    | _ => inl (Raised (newError "Invalid response from Gemini API"))
    end
  else inl (Raised (newError "Invalid response from Gemini API")).

(** The one [axios.post] and what follows it, with the [catch] that logs
    under [label] and rethrows the same error. *)
Definition call (label : string) (outcome : Outcome)
  : list Event * (Thrown + string) :=
  match outcome with
  | Rejected error => ([Post; LogError label], inl (Raised error))
  | Resolved response =>
      match readAnswer response with
      | inr answer => ([Post; LogInfo], inr answer)
      | inl thrown => ([Post; LogError label], inl thrown)
      end
  end.

(** [generateContent(contentType, topic, additionalContext)], lines
    140-192. [outcome] is the outcome of the transport call, if one is
    made. *)
Definition generateContent (contentType : string) (now now' : Z)
    (outcome : Outcome) (requests : list Z)
  : list Event * (Thrown + string) * list Z :=
  match guard now now' requests with
  | (Some e, requests) =>
      ([LogError "Content generation error:"], inl (Raised (rateLimitError e)),
       requests)
  | (None, requests) =>
      if bool_decide (contentType ∈ ["blog-post"; "service-description";
                                     "case-study"]%string)
      then (call "Content generation error:" outcome, requests)
      else ([LogError "Content generation error:"],
            inl (Raised (newError "Invalid content type")), requests)
  end.

(** [analyzeTechStack(requirements)], lines 195-243. *)
Definition analyzeTechStack (now now' : Z) (outcome : Outcome)
    (requests : list Z)
  : list Event * (Thrown + string) * list Z :=
  match guard now now' requests with
  | (Some e, requests) =>
      ([LogError "Tech stack analysis error:"], inl (Raised (rateLimitError e)),
       requests)
  | (None, requests) => (call "Tech stack analysis error:" outcome, requests)
  end.

(** [generateSEOContent(pageTitle, pageContent)], lines 246-293. *)
Definition generateSEOContent (now now' : Z) (outcome : Outcome)
    (requests : list Z)
  : list Event * (Thrown + string) * list Z :=
  match guard now now' requests with
  | (Some e, requests) =>
      ([LogError "SEO content generation error:"],
       inl (Raised (rateLimitError e)), requests)
  | (None, requests) => (call "SEO content generation error:" outcome, requests)
  end.

End Completions.

(** ** The route that serves the suggestions
       ([POST /suggestions] of [src/routes/contact.js], which
       [src/server.js] mounts under [/api/contacts]) *)

Module Contact.
Import Gemini.
Local Open Scope Z_scope.

(** The JSON answers of the route: [{ success, suggestions }] and
    [{ success, message, error }]. *)
Record Reply := {
  reply_status : Z;
  success : bool;
  reply_message : option string;
  reply_suggestions : option string;
  reply_error : option string
}.

(** Lines 155-172, after input validation. [development] is
    [process.env.NODE_ENV === 'development']. *)
Definition suggestionsRoute (development : bool) (now now' : Z)
    (script : list Outcome) (requests : list Z)
  : option (list Event * Reply) * list Z :=
  match generateProjectSuggestions now now' script requests with
  | (Some (events, inr suggestions), requests) =>
      (Some (events,
             {| reply_status := 200; success := true; reply_message := None;
                reply_suggestions := Some suggestions; reply_error := None |}),
       requests)
  | (Some (events, inl error), requests) =>
      (Some (events ++ [LogError "Project suggestions error:"],
             {| reply_status := 500; success := false;
                reply_message :=
                  Some "Failed to generate suggestions. Please try again later."%string;
                reply_suggestions := None;
                reply_error :=
                  if development then Some (message error) else None |}),
       requests)
  | (None, requests) => (None, requests)
  end.

End Contact.

(** ** [optionalAuth] ([middleware/auth.js]) and
       [PUT /api/auth/change-password] ([src/routes/auth.js]) *)

Module Account.
Import Jwt Session.
Local Open Scope Z_scope.
Local Open Scope session_scope.

(** The [optionalAuth] middleware, lines 92-117: it always calls
    [next()], with [req.user] set or not; its [catch] is silent. *)
Definition optionalAuth (env : Env) (now : Z) (header : option Token)
  : M (option ReqUser) :=
  try_catch
    (match header with
     | Some accessToken =>
         if missing header then ret None
         else
           decoded <- jwt_verify accessToken (JWT_SECRET env) now ;;
           user <- findById (userId decoded) ;;
           match user with
           | Some user =>
               if isActive user then
                 ret (Some {| req_userId := userId decoded;
                              req_email := email user;
                              req_role := role user;
                              req_name := name user |})
               else ret None
           | None => ret None
           end
     | None => ret None
     end)
    (λ error, ret None).


Section Passwords.
(** [bcrypt.compare(password, hash)] and [bcrypt.hash(password, 12)]; the
    salt that [bcrypt.hash] draws is an argument. *)
Variable bcrypt_compare : string → string → bool.
Variable bcrypt_hash : string → string → string.



End Passwords.

End Account.

(** ** Properties of the rate limiter *)

Module RateLimiterFacts.
Import RateLimiter.
Local Open Scope Z_scope.

Lemma prune_all_kept now (requests : list Z) :
  Forall (λ time, now - time < windowMs) requests →
  prune now requests = requests.
Proof.
  unfold prune. induction 1 as [|time requests Hk _ IH]; [done|].
  rewrite filter_cons_True by done. by rewrite IH.
Qed.

Lemma prune_in_window now (requests : list Z) :
  Forall (λ time, now - time < windowMs) (prune now requests).
Proof.
  apply Forall_forall. intros t Ht.
  unfold prune in Ht. by apply list_elem_of_filter in Ht as [? _].
Qed.

Lemma prune_length now (requests : list Z) :
  (length (prune now requests) ≤ length requests)%nat.
Proof. apply length_filter. Qed.

Lemma prune_drops now (requests : list Z) t :
  t ∈ requests → windowMs ≤ now - t →
  (length (prune now requests) < length requests)%nat.
Proof.
  unfold prune. induction requests as [|a l IH]; intros Hin Hold.
  - by apply elem_of_nil in Hin.
  - apply elem_of_cons in Hin as [->|Hin].
    + rewrite filter_cons_False by lia. simpl.
      pose proof (length_filter (λ time, now - time < windowMs) l). lia.
    + specialize (IH Hin Hold).
      destruct (decide (now - a < windowMs)).
      * rewrite filter_cons_True by done. simpl. lia.
      * rewrite filter_cons_False by done. simpl. lia.
Qed.

Lemma canMakeRequest_admits now (requests : list Z) :
  (length (prune now requests) < maxRequests)%nat →
  canMakeRequest now requests = (true, prune now requests ++ [now]).
Proof.
  intros Hlen. unfold canMakeRequest.
  destruct (Nat.leb_spec maxRequests (length (prune now requests))); [lia|done].
Qed.

Lemma canMakeRequest_rejects now (requests : list Z) :
  (maxRequests ≤ length (prune now requests))%nat →
  canMakeRequest now requests = (false, prune now requests).
Proof.
  intros Hlen. unfold canMakeRequest.
  destruct (Nat.leb_spec maxRequests (length (prune now requests))); [done|lia].
Qed.

(** Calls whose clock readings all lie in one window are all admitted and
    all recorded, as long as the store does not fill up. *)
Lemma issue_within_window t0 (times requests : list Z) :
  Forall (λ t, t0 ≤ t < t0 + windowMs) requests →
  Forall (λ t, t0 ≤ t < t0 + windowMs) times →
  (length requests + length times ≤ maxRequests)%nat →
  issue times requests
  = (replicate (length times) true, requests ++ times).
Proof.
  revert requests. induction times as [|now times IH]; intros requests Hr Ht Hlen.
  - simpl. by rewrite app_nil_r.
  - apply Forall_cons in Ht as [Hnow Ht]. simpl in Hlen.
    assert (Hkeep : prune now requests = requests).
    { apply prune_all_kept. eapply Forall_impl; [exact Hr|]. simpl. lia. }
    cbn [issue]. rewrite canMakeRequest_admits by (rewrite Hkeep; lia).
    rewrite Hkeep, IH.
    + by rewrite <- app_assoc.
    + apply Forall_app. split; [done|]. by apply Forall_singleton.
    + done.
    + rewrite List.length_app. simpl. lia.
Qed.

(** The store never exceeds [maxRequests] entries. *)
Lemma canMakeRequest_bounded now (requests : list Z) :
  (length requests ≤ maxRequests)%nat →
  (length (canMakeRequest now requests).2 ≤ maxRequests)%nat.
Proof.
  intros Hlen. pose proof (prune_length now requests) as Hp.
  unfold canMakeRequest.
  destruct (Nat.leb_spec maxRequests (length (prune now requests))); simpl.
  - lia.
  - rewrite List.length_app. simpl. lia.
Qed.

Lemma issue_bounded (times requests : list Z) :
  (length requests ≤ maxRequests)%nat →
  (length (issue times requests).2 ≤ maxRequests)%nat.
Proof.
  revert requests. induction times as [|now times IH]; intros requests Hlen; [done|].
  cbn [issue].
  pose proof (canMakeRequest_bounded now requests Hlen) as Hb.
  destruct (canMakeRequest now requests) as [ok requests'].
  specialize (IH requests' Hb).
  destruct (issue times requests') as [oks requests'']. done.
Qed.

Lemma after_bounded history : (length (after history) ≤ maxRequests)%nat.
Proof. apply issue_bounded. simpl. unfold maxRequests. lia. Qed.

Lemma after_within_window t0 (times : list Z) :
  Forall (λ t, t0 ≤ t < t0 + windowMs) times →
  (length times ≤ maxRequests)%nat →
  issue times [] = (replicate (length times) true, times).
Proof.
  intros Ht Hlen. by rewrite (issue_within_window t0) by (done || simpl; lia).
Qed.

(** A full window at the guard: from the initial empty store,
    [maxRequests] calls whose clock readings lie in one window are all
    admitted, one more call in that window is refused and the guard throws
    the rate-limit error computed from the oldest recorded call, and a
    call is admitted again once a recorded call has aged out. *)
Lemma full_window_at_guard t0 (times : list Z) (next now' : Z) :
  length times = maxRequests →
  Forall (λ t, t0 ≤ t < t0 + windowMs) times →
  t0 ≤ next < t0 + windowMs →
  head times ≠ Some 0 →
  (issue times []).1 = replicate maxRequests true
  ∧ canMakeRequest next (after times) = (false, after times)
  ∧ (∃ oldest, head times = Some oldest
       ∧ getRetryDelay now' (after times) = windowMs - (now' - oldest)
       ∧ guard next now' (after times)
         = (Some (RateLimitExceeded
                    (ceil_div (windowMs - (now' - oldest)) 1000)),
            after times)
       ∧ (now' < t0 + windowMs → 0 < getRetryDelay now' (after times)))
  ∧ (∀ now t, t ∈ times → windowMs ≤ now - t →
       (canMakeRequest now (after times)).1 = true).
Proof.
  intros Hlen Hwin Hnext Hhead.
  pose proof (after_within_window t0 times Hwin ltac:(lia)) as Hrun.
  assert (Hafter : after times = times) by (unfold after; by rewrite Hrun).
  rewrite Hafter, Hrun, Hlen. simpl.
  assert (Hkeep : prune next times = times).
  { apply prune_all_kept. eapply Forall_impl; [exact Hwin|]. simpl. lia. }
  assert (Hrej : canMakeRequest next times = (false, times)).
  { rewrite canMakeRequest_rejects; rewrite Hkeep; [done|lia]. }
  split; [done|]. split; [done|]. split.
  - destruct times as [|oldest times]; [discriminate Hlen|].
    exists oldest. apply Forall_cons in Hwin as [Hold _].
    assert (Hnz : (oldest =? 0) = false).
    { apply Z.eqb_neq. intros ->. by apply Hhead. }
    assert (Hdelay : getRetryDelay now' (oldest :: times)
                     = windowMs - (now' - oldest)).
    { unfold getRetryDelay. by rewrite Hnz. }
    split; [done|]. split; [done|]. split.
    + unfold guard. by rewrite Hrej, Hdelay.
    + rewrite Hdelay. lia.
  - intros now t Hin Hold.
    pose proof (prune_drops now times t Hin Hold) as Hlt.
    rewrite canMakeRequest_admits by lia. done.
Qed.

(** C10. After every admission check, whatever the history of earlier
    checks, the stored list holds only timestamps inside the window of the
    clock reading of that check and has at most [maxRequests] entries;
    a refused check stores the pruned list and appends nothing. *)
Theorem admission_invariant (history : list Z) (now : Z) :
  let requests := after history in
  let result := canMakeRequest now requests in
  Forall (λ time, now - time < windowMs) result.2
  ∧ (length result.2 ≤ maxRequests)%nat
  ∧ (result.1 = false →
       result.2 = prune now requests
       ∧ (length result.2 ≤ length requests)%nat).
Proof.
  intros requests result. subst result.
  pose proof (after_bounded history) as Hb. fold requests in Hb.
  pose proof (prune_in_window now requests) as Hw.
  split; [|split].
  - unfold canMakeRequest.
    destruct (Nat.leb_spec maxRequests (length (prune now requests))); simpl.
    + done.
    + apply Forall_app. split; [done|]. apply Forall_singleton.
      unfold windowMs. lia.
  - by apply canMakeRequest_bounded.
  - unfold canMakeRequest.
    destruct (Nat.leb_spec maxRequests (length (prune now requests))); simpl.
    + intros _. split; [done|apply prune_length].
    + discriminate.
Qed.

End RateLimiterFacts.

(** ** Properties of the retrying executor *)

Module GeminiFacts.
Import RateLimiter Gemini.
Local Open Scope Z_scope.

(** *** Equations of the loop, one per way through its body *)

Section Loop.
Variables (script : list Outcome) (retryCount : nat)
          (response : option Response).
Hypothesis Hopen : (retryCount < maxRetries)%nat.

Lemma retryLoop_success r :
  status r = 200 →
  retryLoop (Resolved r :: script) retryCount response
  = Some ([Post], inr (Some r)).
Proof.
  intros Hs. cbn [retryLoop].
  apply Nat.ltb_lt in Hopen as ->. by rewrite Hs.
Qed.

Lemma retryLoop_fatal e :
  ¬ transient e →
  retryLoop (Rejected e :: script) retryCount response
  = Some ([Post], inl e).
Proof.
  intros Hn. cbn [retryLoop].
  apply Nat.ltb_lt in Hopen as ->. by rewrite bool_decide_eq_false_2.
Qed.

Lemma retryLoop_retry e :
  transient e → (S retryCount < maxRetries)%nat →
  retryLoop (Rejected e :: script) retryCount response
  = '(events, exit) ← retryLoop script (S retryCount) response;
    Some (Post :: LogWarn (backoff (S retryCount))
               :: Sleep (backoff (S retryCount)) :: events, exit).
Proof.
  intros Ht Hnext. cbn [retryLoop].
  apply Nat.ltb_lt in Hopen as ->. rewrite bool_decide_eq_true_2 by done.
  by apply Nat.ltb_lt in Hnext as ->.
Qed.

Lemma retryLoop_exhausted e :
  transient e → ¬ (S retryCount < maxRetries)%nat →
  retryLoop (Rejected e :: script) retryCount response
  = Some ([Post; LogWarn (backoff (S retryCount))], inl e).
Proof.
  intros Ht Hlast. cbn [retryLoop].
  apply Nat.ltb_lt in Hopen as ->. rewrite bool_decide_eq_true_2 by done.
  by apply Nat.ltb_nlt in Hlast as ->.
Qed.
End Loop.

(** An admitted call runs the loop from [retryCount = 0]. *)
Lemma attempt_admitted now now' script requests :
  (canMakeRequest now requests).1 = true →
  attempt now now' script requests
  = (match retryLoop script 0 None with
     | None => None
     | Some (events, inl error) => Some (events, inl error)
     | Some (events, inr response) =>
         let '(events', result) := afterLoop response in
         Some (events ++ events', result)
     end, (canMakeRequest now requests).2).
Proof.
  intros Hadm. unfold attempt, guard.
  destruct (canMakeRequest now requests) as [ok requests'].
  simpl in Hadm. by subst ok.
Qed.

Lemma rethrow_transient e : transient e → rethrow e = ServiceUnavailable.
Proof. intros Ht. unfold rethrow. by rewrite bool_decide_eq_true_2. Qed.

Lemma rethrow_timeout e : timeout e → rethrow e = RequestTimeout.
Proof.
  intros [Hnone Hcode]. unfold rethrow. rewrite Hnone.
  rewrite !bool_decide_eq_false_2 by discriminate.
  by rewrite bool_decide_eq_true_2.
Qed.

Lemma rethrow_not_unavailable e :
  ¬ transient e → rethrow e ≠ ServiceUnavailable.
Proof.
  intros Hn. unfold rethrow. rewrite bool_decide_eq_false_2 by done.
  repeat case_bool_decide; discriminate.
Qed.

Lemma three_open : (0 < maxRetries)%nat ∧ (1 < maxRetries)%nat
                   ∧ (2 < maxRetries)%nat ∧ ¬ (3 < maxRetries)%nat.
Proof. unfold maxRetries. lia. Qed.

(** C3, as the code has it. The retried failure is HTTP 429 alone. When
    the limiter admits the call and the first two transport calls fail
    with a 429: if the third call answers 200 with a well-formed body, the
    text is returned after exactly three calls and sleeps of [baseDelay]
    and [2 * baseDelay]; if the third call fails with a 429 too, the
    caller gets the service-unavailable error after exactly three
    calls. *)
Theorem retry_until_third_attempt now now' requests e1 e2 :
  (canMakeRequest now requests).1 = true →
  transient e1 → transient e2 →
  (∀ r answer rest,
      status r = 200 → suggestions (data r) = Some answer →
      ∃ events,
        (generateProjectSuggestions now now'
           (Rejected e1 :: Rejected e2 :: Resolved r :: rest) requests).1
        = Some (events, inr answer)
        ∧ attempts events = 3%nat
        ∧ slept events = baseDelay + 2 * baseDelay
        ∧ baseDelay + 2 * baseDelay ≤ slept events)
  ∧ (∀ e3 rest,
      transient e3 →
      ∃ events,
        (generateProjectSuggestions now now'
           (Rejected e1 :: Rejected e2 :: Rejected e3 :: rest) requests).1
        = Some (events, inl ServiceUnavailable)
        ∧ attempts events = 3%nat).
Proof.
  intros Hadm H1 H2.
  destruct three_open as (H0 & H1' & H2' & H3').
  split.
  - intros r answer rest Hs Hbody.
    unfold generateProjectSuggestions.
    rewrite attempt_admitted by done.
    rewrite retryLoop_retry by done. rewrite retryLoop_retry by done.
    rewrite (retryLoop_success _ _ _ H2' r Hs). cbn [mbind option_bind].
    unfold afterLoop. rewrite Hs, Hbody. simpl.
    eexists. split; [reflexivity|]. by vm_compute.
  - intros e3 rest H3.
    unfold generateProjectSuggestions.
    rewrite attempt_admitted by done.
    rewrite retryLoop_retry by done. rewrite retryLoop_retry by done.
    rewrite retryLoop_exhausted by done. cbn [mbind option_bind].
    rewrite rethrow_transient by done. simpl.
    eexists. split; [reflexivity|]. by vm_compute.
Qed.

Lemma retry_until_third_attempt_witness :
  ∃ events,
    (generateProjectSuggestions 1000 1000
       [Rejected Sample.tooManyRequests; Rejected Sample.tooManyRequests;
        Resolved Sample.answer] []).1
    = Some (events, inr "Use our cloud services."%string)
    ∧ attempts events = 3%nat
    ∧ slept events = baseDelay + 2 * baseDelay
    ∧ baseDelay + 2 * baseDelay ≤ slept events.
Proof.
  apply (proj1 (retry_until_third_attempt 1000 1000 []
                  Sample.tooManyRequests Sample.tooManyRequests
                  eq_refl eq_refl eq_refl)
           Sample.answer _ [] eq_refl eq_refl).
Defined.

(** C3, refuted as stated. Timeouts and 5xx answers, which the
    specification counts among the transient failures, are not retried: a
    transport that fails that way twice and would answer on the third call
    is called once and the caller gets the request-timeout or the generic
    error; one that times out every time does not yield the
    service-unavailable error either. *)
Lemma transient_failures_retried_counterexample :
  timeout Sample.timedOut
  ∧ (generateProjectSuggestions 1000 1000
       [Rejected Sample.timedOut; Rejected Sample.timedOut;
        Resolved Sample.answer] []).1
    = Some ([Post; LogError "Gemini API error:"], inl RequestTimeout)
  ∧ (generateProjectSuggestions 1000 1000
       [Rejected Sample.unavailable; Rejected Sample.unavailable;
        Resolved Sample.answer] []).1
    = Some ([Post; LogError "Gemini API error:"], inl GenerationFailed)
  ∧ (generateProjectSuggestions 1000 1000
       [Rejected Sample.timedOut; Rejected Sample.timedOut;
        Rejected Sample.timedOut] []).1
    = Some ([Post; LogError "Gemini API error:"], inl RequestTimeout)
  ∧ RequestTimeout ≠ ServiceUnavailable
  ∧ GenerationFailed ≠ ServiceUnavailable.
Proof.
  split; [split; [reflexivity | left; reflexivity]|].
  repeat split; (reflexivity || discriminate).
Qed.

(** C2, as the code has it. A call that times out is not retried: when the
    limiter admits the call and the first transport call times out, that
    is the only call, nothing is slept, and the caller gets the
    request-timeout error at once. *)
Theorem timeout_not_retried now now' requests e rest :
  (canMakeRequest now requests).1 = true →
  timeout e →
  generateProjectSuggestions now now' (Rejected e :: rest) requests
  = (Some ([Post; LogError "Gemini API error:"], inl RequestTimeout),
     (canMakeRequest now requests).2)
  ∧ attempts [Post; LogError "Gemini API error:"] = 1%nat
  ∧ slept [Post; LogError "Gemini API error:"] = 0.
Proof.
  intros Hadm Ht. split; [|done].
  assert (Hn : ¬ transient e).
  { destruct Ht as [Hnone _]. unfold transient. by rewrite Hnone. }
  unfold generateProjectSuggestions.
  rewrite attempt_admitted by done.
  rewrite retryLoop_fatal by (done || apply three_open).
  by rewrite rethrow_timeout.
Qed.

Lemma timeout_not_retried_witness :
  generateProjectSuggestions 1000 1000
    [Rejected Sample.timedOut; Resolved Sample.answer] []
  = (Some ([Post; LogError "Gemini API error:"], inl RequestTimeout), [1000])
  ∧ attempts [Post; LogError "Gemini API error:"] = 1%nat
  ∧ slept [Post; LogError "Gemini API error:"] = 0.
Proof.
  apply (timeout_not_retried 1000 1000 [] Sample.timedOut
           [Resolved Sample.answer] eq_refl).
  split; [reflexivity | left; reflexivity].
Defined.

(** C2, refuted as stated. On a transport that fails once and then
    answers, a 429 is retried (two calls, one sleep, the text is
    returned) while a timeout is propagated after the single call. *)
Lemma timeout_retried_like_429_counterexample :
  timeout Sample.timedOut
  ∧ transient Sample.tooManyRequests
  ∧ (generateProjectSuggestions 1000 1000
       [Rejected Sample.tooManyRequests; Resolved Sample.answer] []).1
    = Some ([Post; LogWarn 1000; Sleep 1000; Post; LogInfo],
            inr "Use our cloud services."%string)
  ∧ (generateProjectSuggestions 1000 1000
       [Rejected Sample.timedOut; Resolved Sample.answer] []).1
    = Some ([Post; LogError "Gemini API error:"], inl RequestTimeout).
Proof.
  split; [split; [reflexivity | left; reflexivity]|].
  split; [reflexivity|]. split; reflexivity.
Qed.

(** However many retried failures came first, the call that fails in a
    way the loop does not retry is the last one: the loop throws that error
    right after it. *)
Lemma retryLoop_stops_at_fatal prefix e rest retryCount response :
  Forall transient prefix →
  (retryCount + length prefix < maxRetries)%nat →
  ¬ transient e →
  ∃ events,
    retryLoop ((Rejected <$> prefix) ++ Rejected e :: rest) retryCount response
    = Some (events ++ [Post], inl e)
    ∧ attempts events = length prefix.
Proof.
  revert retryCount.
  induction prefix as [|e0 prefix IH]; intros retryCount Hall Hlen Hfatal.
  - exists []. simpl in Hlen. split; [|done].
    apply retryLoop_fatal; [lia|done].
  - apply Forall_cons in Hall as [He0 Hall]. simpl in Hlen.
    destruct (IH (S retryCount) Hall ltac:(lia) Hfatal) as (events & Hrun & Hn).
    eexists (Post :: LogWarn _ :: Sleep _ :: events).
    rewrite fmap_cons, <- app_comm_cons.
    rewrite retryLoop_retry by (done || lia).
    rewrite Hrun. simpl. by rewrite Hn.
Qed.

(** The error of the rate-limit guard does not leave
    [generateProjectSuggestions] as it was thrown: the function's own
    [catch] logs it and rethrows the generic failure, without any call of
    the transport. *)
Lemma refused_call_fails_generically now now' script requests :
  (canMakeRequest now requests).1 = false →
  generateProjectSuggestions now now' script requests
  = (Some ([LogError "Gemini API error:"], inl GenerationFailed),
     (canMakeRequest now requests).2).
Proof.
  intros Href. unfold generateProjectSuggestions, attempt, guard.
  destruct (canMakeRequest now requests) as [ok requests'].
  simpl in Href. by subst ok.
Qed.





End GeminiFacts.

(** ** Properties of the session routes *)

Module SessionFacts.
Import Jwt Session.
Local Open Scope Z_scope.

Example sample_login :
  (login Sample.bcrypt_compare Sample.env Sample.issued "a@b.com" "Secret#123"
     Sample.revoked).1
  = inr {| status := 200;
           body := LoggedIn "Login successful" Sample.aliceAccess
                     {| profile_id := 1; profile_name := "Alice";
                        profile_email := "a@b.com"; profile_role := "admin" |};
           cookie := SetRefreshToken Sample.aliceRefresh |}.
Proof. vm_compute. reflexivity. Qed.

Example sample_login_store :
  users (login Sample.bcrypt_compare Sample.env Sample.issued "a@b.com"
           "Secret#123" Sample.revoked).2 !! 1%positive
  = Some (set_lastLogin (Some Sample.issued)
            (generateRefreshToken Sample.env Sample.issued 1 (Sample.alice [])).2).
Proof. vm_compute. reflexivity. Qed.

Example sample_refresh :
  refresh Sample.env (Sample.issued + 1000) (req_cookies true (Some Sample.aliceRefresh))
    Sample.world
  = (inr {| status := 200;
            body := Refreshed
                      (generateAuthToken Sample.env (Sample.issued + 1000) 1
                         (Sample.alice []))
                      {| profile_id := 1; profile_name := "Alice";
                         profile_email := "a@b.com"; profile_role := "admin" |};
            cookie := NoCookie |}, Sample.world).
Proof. vm_compute. reflexivity. Qed.

(** *** The collection queries *)

Lemma findOne_none filter w :
  (∀ id user, users w !! id = Some user → filter id user = false) →
  findOne filter w = (inr None, w).
Proof.
  intros Hnone. unfold findOne. do 2 f_equal.
  destruct (List.find _ _) as [[id user]|] eqn:Hfind; [|done].
  apply List.find_some in Hfind as [Hin Hacc]. simpl in Hacc.
  apply list_elem_of_In, elem_of_map_to_list in Hin.
  by rewrite (Hnone id user Hin) in Hacc.
Qed.


Lemma findOne_frame filter w : (findOne filter w).2 = w.
Proof. done. Qed.

(** A token that passes or outlives verification is a signed one. *)
Lemma verify_not_missing tok key now :
  verify tok key now ≠ inl JsonWebTokenError → missing (Some tok) = false.
Proof. by destruct tok. Qed.


(** A refusal of the token as a parsed cookie is a refusal of the request
    whether or not its cookies were parsed. *)
Lemma refresh_any_parser parser env now sent w :
  (refresh env now (Some sent) w).1 = inr (fail 401 "Invalid refresh token") →
  (refresh env now (req_cookies parser sent) w).1
  = inr (fail 401 "Invalid refresh token").
Proof. by destruct parser. Qed.

Lemma refresh_throws env now w tok e :
  missing (Some tok) = false →
  verify tok (JWT_REFRESH_SECRET env) now = inl e →
  (refresh env now (Some (Some tok)) w).1 = inr (fail 401 "Invalid refresh token").
Proof.
  intros Hm Hv. unfold refresh, try_catch, bind, jwt_verify.
  by rewrite Hm, Hv.
Qed.

Lemma refresh_unlisted env now w tok decoded :
  verify tok (JWT_REFRESH_SECRET env) now = inr decoded →
  (∀ user, users w !! userId decoded = Some user →
           isActive user = true →
           tok ∉ token <$> refreshTokens user) →
  refresh env now (Some (Some tok)) w
  = (inr (fail 401 "Invalid refresh token"), w).
Proof.
  intros Hv Hgone. unfold refresh, try_catch, bind, jwt_verify.
  rewrite (verify_not_missing tok (JWT_REFRESH_SECRET env) now)
    by (rewrite Hv; discriminate).
  rewrite Hv. unfold ret at 1. rewrite findOne_none; [done|].
  intros id user Hlook.
  destruct (decide (id = userId decoded)) as [->|Hne].
  - destruct (isActive user) eqn:Hact; [|by rewrite andb_false_r].
    rewrite (bool_decide_eq_false_2 (tok ∈ _)) by by apply Hgone.
    by rewrite andb_false_r.
  - by rewrite bool_decide_eq_false_2.
Qed.

(** C1, as the code has it. [/refresh] answers an expired token and a
    token that verifies but is no longer listed for its principal in the
    same way: status 401 with the message [Invalid refresh token],
    whether or not the cookies of the request were parsed. *)
Theorem refresh_rejects_expired_and_revoked parser env now w tok :
  verify tok (JWT_REFRESH_SECRET env) now = inl TokenExpiredError
  ∨ (∃ decoded,
       verify tok (JWT_REFRESH_SECRET env) now = inr decoded
       ∧ ∀ user, users w !! userId decoded = Some user →
                 tok ∉ token <$> refreshTokens user) →
  (refresh env now (req_cookies parser (Some tok)) w).1
  = inr (fail 401 "Invalid refresh token").
Proof.
  intros Hcase. apply refresh_any_parser.
  destruct Hcase as [Hexp | (decoded & Hv & Hgone)].
  - eapply refresh_throws; [|exact Hexp].
    apply (verify_not_missing _ (JWT_REFRESH_SECRET env) now).
    rewrite Hexp. discriminate.
  - erewrite refresh_unlisted; [done|exact Hv|]. intros user Hu _. by apply Hgone.
Qed.

Lemma refresh_rejects_expired_and_revoked_witness :
  (refresh Sample.env Sample.eightDaysLater
     (req_cookies true (Some Sample.aliceRefresh)) Sample.world).1
  = inr (fail 401 "Invalid refresh token")
  ∧ (refresh Sample.env (Sample.issued + 1000)
       (req_cookies true (Some Sample.aliceRefresh)) Sample.revoked).1
    = inr (fail 401 "Invalid refresh token").
Proof.
  split.
  - apply (refresh_rejects_expired_and_revoked true Sample.env
             Sample.eightDaysLater Sample.world Sample.aliceRefresh).
    left. reflexivity.
  - apply (refresh_rejects_expired_and_revoked true Sample.env
             (Sample.issued + 1000) Sample.revoked Sample.aliceRefresh).
    right. eexists. split; [reflexivity|].
    intros user Hu. simpl in Hu.
    apply (lookup_insert_Some (M := gmap positive)) in Hu as [[_ <-]|[Hne _]];
      [|done].
    simpl. apply not_elem_of_nil.
Defined.

(** C1, refuted as stated. Alice's refresh token eight days after it was
    issued is expired, and shortly after it was issued but revoked it
    verifies and is not listed; [/refresh] gives the same answer in both
    cases, and it is not a token-expired answer. This is so with the
    cookies parsed and, as the server is set up, without. *)
Lemma refresh_expired_distinguishable_counterexample :
  verify Sample.aliceRefresh (JWT_REFRESH_SECRET Sample.env)
    Sample.eightDaysLater = inl TokenExpiredError
  ∧ (∃ decoded,
       verify Sample.aliceRefresh (JWT_REFRESH_SECRET Sample.env)
         (Sample.issued + 1000) = inr decoded
       ∧ users Sample.revoked !! userId decoded = Some (Sample.alice []))
  ∧ (refresh Sample.env Sample.eightDaysLater
       (req_cookies true (Some Sample.aliceRefresh)) Sample.world).1
    = (refresh Sample.env (Sample.issued + 1000)
         (req_cookies true (Some Sample.aliceRefresh)) Sample.revoked).1
  ∧ (refresh Sample.env Sample.eightDaysLater
       (req_cookies true (Some Sample.aliceRefresh)) Sample.world).1
    ≠ inr (fail 401 "Token expired.")
  ∧ (refresh Sample.env Sample.eightDaysLater
       (req_cookies server_cookieParser (Some Sample.aliceRefresh)) Sample.world).1
    = (refresh Sample.env (Sample.issued + 1000)
         (req_cookies server_cookieParser (Some Sample.aliceRefresh))
         Sample.revoked).1
  ∧ (refresh Sample.env Sample.eightDaysLater
       (req_cookies server_cookieParser (Some Sample.aliceRefresh)) Sample.world).1
    ≠ inr (fail 401 "Token expired.").
Proof.
  split; [reflexivity|]. split; [eexists; split; reflexivity|].
  split; [reflexivity|]. split; [vm_compute; discriminate|].
  split; [reflexivity|]. vm_compute. discriminate.
Qed.

(** C5. A principal whose [isActive] flag is false cannot log in: with
    unique e-mail addresses, [/login] with that principal's e-mail answers
    401 [Invalid credentials] and changes nothing, whatever the password
    and whatever the comparison with the stored hash would say. *)
Theorem inactive_principal_cannot_login
    bcrypt_compare env now w id user password' :
  users w !! id = Some user →
  isActive user = false →
  (∀ id' user', users w !! id' = Some user' →
                email user' = email user → id' = id) →
  login bcrypt_compare env now (email user) password' w
  = (inr (fail 401 "Invalid credentials"), w).
Proof.
  intros Hlook Hinactive Hunique. unfold login, try_catch, bind.
  rewrite findOne_none; [done|].
  intros id' user' Hlook'.
  destruct (decide (email user' = email user)) as [Heq|Hne].
  - assert (id' = id) as -> by by eapply Hunique.
    assert (user' = user) as -> by congruence.
    by rewrite Hinactive, andb_false_r.
  - by rewrite bool_decide_eq_false_2.
Qed.

Lemma sample_emails_unique id' user' :
  users Sample.world !! id' = Some user' →
  email user' = email Sample.bob → id' = 2%positive.
Proof.
  simpl. intros Hlook Hmail.
  apply (lookup_insert_Some (M := gmap positive)) in Hlook
    as [[_ <-]|[_ Hlook]]; [discriminate Hmail|].
  by apply (lookup_singleton_Some (M := gmap positive)) in Hlook as [<- _].
Defined.

Lemma inactive_principal_cannot_login_witness :
  Sample.bcrypt_compare "Secret#456" (password Sample.bob) = true
  ∧ login Sample.bcrypt_compare Sample.env Sample.issued "bob@b.com"
      "Secret#456" Sample.world
    = (inr (fail 401 "Invalid credentials"), Sample.world).
Proof.
  split; [reflexivity|].
  apply (inactive_principal_cannot_login Sample.bcrypt_compare Sample.env
           Sample.issued Sample.world 2 Sample.bob "Secret#456").
  - reflexivity.
  - reflexivity.
  - apply sample_emails_unique.
Defined.

(** C8. For an authenticated request, [authorize(roles)] calls [next()]
    exactly when [roles] is empty or contains the principal's role, and
    answers 403 otherwise; membership is plain equality of role names. An
    unauthenticated request is answered 401. *)
Theorem authorize_allow_set roles user :
  (authorize roles (Some user) = Next tt
   ↔ roles = [] ∨ req_role user ∈ roles)
  ∧ (authorize roles (Some user) = Respond (fail 403 "Insufficient permissions.")
     ↔ roles ≠ [] ∧ req_role user ∉ roles)
  ∧ authorize roles None = Respond (fail 401 "Authentication required.").
Proof.
  split; [|split; [|done]]; unfold authorize.
  - destruct roles as [|r roles]; simpl; [by split; [left|]|].
    case_bool_decide; simpl; split; try done.
    + by right.
    + by intros [?|?].
  - destruct roles as [|r roles]; simpl; [by split; [|intros [? _]]|].
    case_bool_decide; simpl; split; try done.
    by intros [_ ?].
Qed.

(** No role implies another: an admin is refused where only managers are
    allowed. *)
Example authorize_no_hierarchy :
  authorize ["manager"%string] (Some Sample.aliceReq)
  = Respond (fail 403 "Insufficient permissions.").
Proof. reflexivity. Qed.



(** The failing input of C9: Alice's refresh token, listed in her store and
    one second old. With the cookies parsed the handler would answer 200;
    as the server is set up it answers 401. *)
Example refresh_of_listed_token_as_mounted :
  (refresh Sample.env (Sample.issued + 1000)
     (req_cookies server_cookieParser (Some Sample.aliceRefresh)) Sample.world).1
  = inr (fail 401 "Invalid refresh token")
  ∧ (refresh Sample.env (Sample.issued + 1000)
       (req_cookies true (Some Sample.aliceRefresh)) Sample.world).1
    = inr {| status := 200;
             body := Refreshed
                       (Signed "access-secret"
                          {| userId := 1; claim_email := Some "a@b.com"%string;
                             claim_role := Some "admin"%string |}
                          5001 8601)
                       {| profile_id := 1; profile_name := "Alice";
                          profile_email := "a@b.com"; profile_role := "admin" |};
             cookie := NoCookie |}.
Proof. split; vm_compute; reflexivity. Qed.

(** [/logout-all] empties the store of the principal and touches no
    other field and no other document. *)
Lemma logout_all_world user w :
  (logout_all user w).2
  = {| users := alter (set_refreshTokens []) (req_userId user) (users w);
       logged := logged w
                 ++ [("info"%string,
                      "User logged out from all devices: " +:+ req_email user)] |}.
Proof. done. Qed.

(** C6. After [/logout-all] for a principal, [/refresh] answers 401
    [Invalid refresh token] to every signed token whose subject is that
    principal, whenever it is presented and whether or not the cookies of
    the request are parsed; an access token signed for the
    principal before and not yet expired still verifies, and the [auth]
    middleware still lets it through while the principal is active. *)
Theorem logout_all_revokes env user w stored mail role' iat exp now :
  users w !! req_userId user = Some stored →
  now / 1000 < exp →
  let w' := (logout_all user w).2 in
  let claims := {| userId := req_userId user; claim_email := mail;
                   claim_role := role' |} in
  let accessToken := Signed (JWT_SECRET env) claims iat exp in
  (∀ parser key mail' role'' iat' exp' later,
      (refresh env later
         (req_cookies parser
            (Some (Signed key {| userId := req_userId user; claim_email := mail';
                                 claim_role := role'' |} iat' exp'))) w').1
      = inr (fail 401 "Invalid refresh token"))
  ∧ verify accessToken (JWT_SECRET env) now = inr claims
  ∧ (auth env now (Some accessToken) w').1
    = inr (if isActive stored
           then Next {| req_userId := req_userId user;
                        req_email := email stored; req_role := role stored;
                        req_name := name stored |}
           else Respond (fail 401 "Invalid token. User not found or inactive.")).
Proof.
  intros Hlook Hfresh w' claims accessToken.
  assert (Hverify : verify accessToken (JWT_SECRET env) now = inr claims).
  { unfold accessToken, verify.
    rewrite bool_decide_eq_true_2 by done.
    by apply Z.leb_gt in Hfresh as ->. }
  split; [|split; [done|]].
  - intros parser key mail' role'' iat' exp' later. apply refresh_any_parser.
    set (tok := Signed _ _ _ _).
    destruct (verify tok (JWT_REFRESH_SECRET env) later) as [e|decoded] eqn:Hv.
    + by eapply refresh_throws.
    + assert (userId decoded = req_userId user) as Hsubject.
      { unfold tok, verify in Hv. repeat case_match; try discriminate.
        by injection Hv as <-. }
      erewrite refresh_unlisted; [done|exact Hv|].
      intros user' Hlook' _. rewrite Hsubject in Hlook'.
      subst w'. rewrite logout_all_world in Hlook'. simpl in Hlook'.
      rewrite lookup_alter_eq, Hlook in Hlook'. injection Hlook' as <-.
      simpl. apply not_elem_of_nil.
  - unfold auth, try_catch, bind, jwt_verify, findById.
    change (missing (Some accessToken)) with false. cbn iota.
    rewrite Hverify. subst w'. rewrite logout_all_world. simpl.
    rewrite lookup_alter_eq, Hlook. simpl.
    by destruct (isActive stored).
Qed.

Lemma logout_all_revokes_witness :
  let stored := (generateRefreshToken Sample.env Sample.issued 1 (Sample.alice [])).2 in
  let w' := (logout_all Sample.aliceReq Sample.world).2 in
  (refresh Sample.env (Sample.issued + 1000)
     (req_cookies true (Some Sample.aliceRefresh)) w').1
  = inr (fail 401 "Invalid refresh token")
  ∧ verify Sample.aliceAccess (JWT_SECRET Sample.env) (Sample.issued + 1000)
    = inr {| userId := 1; claim_email := Some "a@b.com"%string;
             claim_role := Some "admin"%string |}
  ∧ (auth Sample.env (Sample.issued + 1000) (Some Sample.aliceAccess) w').1
    = inr (Next Sample.aliceReq).
Proof.
  intros stored w'.
  destruct (logout_all_revokes Sample.env Sample.aliceReq Sample.world stored
              (Some "a@b.com"%string) (Some "admin"%string)
              (Sample.issued / 1000) (Sample.issued / 1000 + 3600)
              (Sample.issued + 1000))
    as (Hrefresh & Hverify & Hauth).
  - reflexivity.
  - vm_compute. reflexivity.
  - split; [|split].
    + exact (Hrefresh true "refresh-secret"%string None None
               (Sample.issued / 1000) (Sample.issued / 1000 + 604800)
               (Sample.issued + 1000)).
    + exact Hverify.
    + exact Hauth.
Defined.

End SessionFacts.

(** ** The sliding window over a whole history *)

From stdpp Require Import sorting.

Module AdmissionFacts.
Import RateLimiter Admission RateLimiterFacts.
Local Open Scope Z_scope.

(** Pruning at a later reading absorbs pruning at an earlier one. *)
Lemma prune_prune earlier now (past : list Z) :
  earlier ≤ now → prune now (prune earlier past) = prune now past.
Proof.
  intros Hle. unfold prune. rewrite list_filter_filter.
  apply list_filter_iff. intros t. lia.
Qed.

Lemma last_cons_default {A} (x : A) (l : list A) d :
  List.last (x :: l) d = List.last l x.
Proof.
  revert x d. induction l as [|y l IH]; intros x d; [done|].
  change (List.last (x :: y :: l) d) with (List.last (y :: l) d).
  by rewrite !IH.
Qed.

(** With a clock that never goes back, the store is at every moment the
    admitted readings that lie in the window of the latest check. *)
Lemma store_is_window (times requests past : list Z) latest :
  requests = prune latest past →
  Forall (λ t, latest ≤ t) times →
  StronglySorted Z.le times →
  (issue times requests).2
  = prune (List.last times latest) (past ++ admitted times requests).
Proof.
  revert requests past latest.
  induction times as [|now times IH]; intros requests past latest Hstore Hge Hsorted.
  - simpl. by rewrite app_nil_r.
  - apply Forall_cons in Hge as [Hnow _].
    apply StronglySorted_inv in Hsorted as [Hsorted Hafter].
    assert (Hpruned : prune now requests = prune now past).
    { rewrite Hstore. by apply prune_prune. }
    rewrite last_cons_default. cbn [issue admitted].
    unfold canMakeRequest.
    destruct (maxRequests <=? length (prune now requests))%nat.
    + specialize (IH (prune now requests) past now Hpruned Hafter Hsorted).
      destruct (issue times (prune now requests)) as [oks store]. exact IH.
    + specialize (IH (prune now requests ++ [now]) (past ++ [now]) now).
      destruct (issue times (prune now requests ++ [now])) as [oks store].
      rewrite <- app_assoc in IH. apply IH; [|done|done].
      unfold prune at 2. rewrite filter_app. fold (prune now past).
      rewrite Hpruned.
      by rewrite filter_cons_True by (unfold windowMs; lia).
Qed.

Lemma admitted_sublist (times requests : list Z) :
  admitted times requests `sublist_of` times.
Proof.
  revert requests. induction times as [|now times IH]; intros requests; [done|].
  cbn [admitted]. destruct (canMakeRequest now requests) as [[] store].
  - by apply sublist_skip.
  - by apply sublist_cons.
Qed.

Lemma StronglySorted_sublist_of (l1 l2 : list Z) :
  l1 `sublist_of` l2 → StronglySorted Z.le l2 → StronglySorted Z.le l1.
Proof.
  induction 1 as [|x l1 l2 Hsub IH|x l1 l2 Hsub IH]; intros Hsorted; [done| |].
  - apply StronglySorted_inv in Hsorted as [Hsorted Hall].
    constructor; [by apply IH|].
    apply Forall_forall. intros y Hy.
    eapply Forall_forall in Hall; [exact Hall|]. by eapply elem_of_sublist.
  - apply StronglySorted_inv in Hsorted as [Hsorted _]. by apply IH.
Qed.

Lemma after_is_window (history : list Z) :
  StronglySorted Z.le history →
  after history = prune (List.last history 0) (admitted history []).
Proof.
  intros Hsorted. destruct history as [|first rest]; [done|].
  unfold after.
  rewrite (store_is_window (first :: rest) [] [] first); [| done | | done].
  - by rewrite !last_cons_default.
  - apply StronglySorted_inv in Hsorted as [_ Hall].
    constructor; [lia|done].
Qed.

(** X1. With a clock that never goes back, however many checks are made,
    the admitted calls whose readings lie in the window that ends at the
    latest check number at most [maxRequests]: the limiter never lets more
    than 60 calls through in the 60 seconds before any check. *)
Theorem sliding_window_bound (history : list Z) :
  StronglySorted Z.le history →
  (length (prune (List.last history 0%Z) (admitted history [])) ≤ maxRequests)%nat.
Proof.
  intros Hsorted. rewrite <- after_is_window by done. apply after_bounded.
Qed.

Lemma sliding_window_bound_witness :
  (length (prune (List.last (Sample.minute ++ [60500; 60700; 61000]%Z) 0%Z)
             (admitted (Sample.minute ++ [60500; 60700; 61000]%Z) []))
   ≤ maxRequests)%nat.
Proof.
  apply (sliding_window_bound (Sample.minute ++ [60500; 60700; 61000])).
  apply (bool_decide_unpack _). vm_compute. exact I.
Defined.

(** X2. With a clock that never goes back, the store is in ascending
    order, so its first entry, the one [getRetryDelay] reads, is the
    oldest recorded call. *)
Theorem store_oldest_first (history : list Z) oldest t :
  StronglySorted Z.le history →
  head (after history) = Some oldest →
  t ∈ after history →
  oldest ≤ t.
Proof.
  intros Hsorted Hhead Hin.
  assert (Hstore : StronglySorted Z.le (after history)).
  { rewrite after_is_window by done.
    eapply StronglySorted_sublist_of; [|exact Hsorted].
    etrans; [apply sublist_filter|apply admitted_sublist]. }
  apply head_Some in Hhead as [rest Heq]. rewrite Heq in Hstore, Hin.
  apply StronglySorted_inv in Hstore as [_ Hall].
  apply elem_of_cons in Hin as [->|Hin]; [lia|].
  eapply Forall_forall in Hall; [exact Hall|done].
Qed.

Lemma store_oldest_first_witness : 1000 ≤ 60000.
Proof.
  apply (store_oldest_first Sample.minute 1000 60000).
  - apply (bool_decide_unpack _). vm_compute. exact I.
  - vm_compute. reflexivity.
  - apply (bool_decide_unpack _). vm_compute. exact I.
Defined.



End AdmissionFacts.

(** ** More on the retrying executor *)

Module ExecutorFacts.
Import RateLimiter Gemini GeminiFacts.
Local Open Scope Z_scope.

Lemma slept_app events events' : slept (events ++ events') = slept events + slept events'.
Proof.
  induction events as [|[] events IH]; simpl; rewrite ?IH; lia.
Qed.

Lemma attempts_app events events' :
  attempts (events ++ events') = (attempts events + attempts events')%nat.
Proof.
  induction events as [|[] events IH]; simpl; rewrite ?IH; lia.
Qed.

(** The sleeps still ahead of the loop shrink as [retryCount] grows: what
    was slept before plus what is slept from here on stays within
    [baseDelay + 2 * baseDelay]. *)
Lemma retryLoop_sleep_budget script retryCount response events exit :
  retryLoop script retryCount response = Some (events, exit) →
  0 ≤ slept events
  ∧ ((retryCount < maxRetries)%nat →
     slept events + baseDelay * (2 ^ Z.of_nat retryCount - 1)
     ≤ baseDelay + 2 * baseDelay).
Proof.
  revert retryCount response events exit.
  induction script as [|outcome script IH]; intros retryCount response events exit.
  - cbn [retryLoop]. destruct (Nat.ltb_spec retryCount maxRetries); [discriminate|].
    intros [= <- <-]. simpl. split; [done|lia].
  - cbn [retryLoop]. destruct (Nat.ltb_spec retryCount maxRetries) as [Hopen|Hclosed].
    2:{ intros [= <- <-]. simpl. split; [done|lia]. }
    assert (Hpow : 1 ≤ 2 ^ Z.of_nat retryCount ≤ 4).
    { unfold maxRetries in Hopen.
      assert (retryCount = 0 ∨ retryCount = 1 ∨ retryCount = 2)%nat
        as [->|[->| ->]] by lia; simpl; lia. }
    destruct outcome as [r|e].
    + destruct (status r =? 200).
      * intros [= <- <-]. simpl. unfold baseDelay. split; lia.
      * destruct (retryLoop script retryCount (Some r)) as [[events' exit']|] eqn:Hrun;
          [|discriminate].
        intros [= <- <-]. simpl.
        destruct (IH _ _ _ _ Hrun) as [H0 Hb]. split; [done|]. intros _. by apply Hb.
    + case_bool_decide.
      * destruct (Nat.ltb_spec (S retryCount) maxRetries) as [Hnext|Hlast].
        -- destruct (retryLoop script (S retryCount) response)
             as [[events' exit']|] eqn:Hrun; [|discriminate].
           intros [= <- <-]. simpl.
           destruct (IH _ _ _ _ Hrun) as [H0 Hb]. specialize (Hb Hnext).
           replace (Z.of_nat (S retryCount) - 1) with (Z.of_nat retryCount) by lia.
           rewrite Nat2Z.inj_succ, Z.pow_succ_r in Hb by lia.
           unfold baseDelay in *. split; lia.
        -- intros [= <- <-]. simpl. unfold baseDelay, maxRetries in *.
           assert (retryCount = 2)%nat as -> by lia. simpl. split; lia.
      * intros [= <- <-]. simpl. unfold baseDelay. split; lia.
Qed.

Lemma afterLoop_no_sleep response : slept (afterLoop response).1 = 0.
Proof.
  unfold afterLoop. destruct response as [r|]; [|done].
  destruct (status r =? 200); [|done]. by destruct (suggestions (data r)).
Qed.

(** X4. Whatever the transport does, a run of [generateProjectSuggestions]
    that ends has slept at most [baseDelay + 2 * baseDelay] (3 s) in total,
    and it has changed the store of the rate limiter exactly as its one
    admission check did: retries are never counted against the window. *)
Theorem run_resources now now' script requests events result :
  (generateProjectSuggestions now now' script requests).1 = Some (events, result) →
  0 ≤ slept events ≤ baseDelay + 2 * baseDelay
  ∧ (generateProjectSuggestions now now' script requests).2
    = (canMakeRequest now requests).2.
Proof.
  unfold generateProjectSuggestions, attempt, guard.
  destruct (canMakeRequest now requests) as [[] store]; simpl.
  2:{ intros [= <- <-]. unfold baseDelay. simpl. split; [lia|done]. }
  destruct (retryLoop script 0 None) as [[loopEvents exit]|] eqn:Hloop;
    [|discriminate].
  destruct (retryLoop_sleep_budget _ _ _ _ _ Hloop) as [H0 Hb].
  specialize (Hb ltac:(unfold maxRetries; lia)). simpl in Hb.
  destruct exit as [error|response].
  - simpl. intros [= <- <-]. rewrite slept_app. simpl. split; [lia|done].
  - pose proof (afterLoop_no_sleep response) as Hn.
    destruct (afterLoop response) as [events' [error|answer]]; simpl in *.
    + intros [= <- <-]. rewrite !slept_app, Hn. simpl. split; [lia|done].
    + intros [= <- <-]. rewrite !slept_app, Hn. split; [lia|done].
Qed.

Lemma run_resources_witness :
  0 ≤ slept [Post; LogWarn 1000; Sleep 1000; Post; LogWarn 2000; Sleep 2000;
             Post; LogWarn 4000; LogError "Gemini API error:"]
    ≤ baseDelay + 2 * baseDelay
  ∧ (generateProjectSuggestions 1000 1000
       [Rejected Sample.tooManyRequests; Rejected Sample.tooManyRequests;
        Rejected Sample.tooManyRequests] []).2
    = (canMakeRequest 1000 []).2.
Proof.
  apply (run_resources 1000 1000
           [Rejected Sample.tooManyRequests; Rejected Sample.tooManyRequests;
            Rejected Sample.tooManyRequests] [] _ (inl ServiceUnavailable)).
  vm_compute. reflexivity.
Defined.

(** X5. When the limiter refuses a call, [generateProjectSuggestions]
    makes no transport call and its caller gets the generic error: the
    rate-limit error that the guard throws, with its number of seconds, is
    replaced by the function's own [catch], so the answer is the same
    whenever the delay is computed. *)
Theorem refused_call_loses_retry_after now now' script requests :
  (canMakeRequest now requests).1 = false →
  (∃ secs, (guard now now' requests).1 = Some (RateLimitExceeded secs))
  ∧ (generateProjectSuggestions now now' script requests).1
    = Some ([LogError "Gemini API error:"], inl GenerationFailed)
  ∧ attempts [LogError "Gemini API error:"] = 0%nat
  ∧ (generateProjectSuggestions now now' script requests).2
    = prune now requests.
Proof.
  intros Href. rewrite refused_call_fails_generically by done.
  split; [|split; [done|split; [done|]]].
  - unfold guard. destruct (canMakeRequest now requests) as [ok store].
    simpl in Href. subst ok. simpl. eauto.
  - simpl. unfold canMakeRequest in *.
    by destruct (maxRequests <=? length (prune now requests))%nat.
Qed.

Lemma refused_call_loses_retry_after_witness :
  (∃ secs, (guard 60500 60501 (after Sample.minute)).1
           = Some (RateLimitExceeded secs))
  ∧ (generateProjectSuggestions 60500 60501 [Resolved Sample.answer]
       (after Sample.minute)).1
    = Some ([LogError "Gemini API error:"], inl GenerationFailed)
  ∧ attempts [LogError "Gemini API error:"] = 0%nat
  ∧ (generateProjectSuggestions 60500 60501 [Resolved Sample.answer]
       (after Sample.minute)).2
    = prune 60500 (after Sample.minute).
Proof.
  apply (refused_call_loses_retry_after 60500 60501 [Resolved Sample.answer]
           (after Sample.minute)).
  vm_compute. reflexivity.
Defined.

Lemma rethrow_cases error :
  rethrow error = ServiceUnavailable ∨ rethrow error = AccessDenied
  ∨ rethrow error = RequestTimeout ∨ rethrow error = GenerationFailed.
Proof. unfold rethrow. repeat case_bool_decide; auto. Qed.

Lemma rejected_run_cases now now' script requests events error :
  (generateProjectSuggestions now now' script requests).1
  = Some (events, inl error) →
  error = ServiceUnavailable ∨ error = AccessDenied
  ∨ error = RequestTimeout ∨ error = GenerationFailed.
Proof.
  unfold generateProjectSuggestions.
  destruct (attempt now now' script requests) as [[[events' [thrown|answer]]|] store];
    simpl; [|discriminate..].
  intros [= <- <-]. apply rethrow_cases.
Qed.

(** X6. A caller of [generateProjectSuggestions] only ever sees four
    errors: whatever was thrown inside (the error of the transport, of the
    rate-limit guard or of the checks on the answer), a rejected run
    carries the service-unavailable, access-denied, request-timeout or
    generic error, and its last event is the log line of the outer
    [catch]. *)
Theorem rejections_are_one_of_four now now' script requests events error :
  (generateProjectSuggestions now now' script requests).1
  = Some (events, inl error) →
  (error = ServiceUnavailable ∨ error = AccessDenied
   ∨ error = RequestTimeout ∨ error = GenerationFailed)
  ∧ last events = Some (LogError "Gemini API error:").
Proof.
  unfold generateProjectSuggestions.
  destruct (attempt now now' script requests) as [[[events' [thrown|answer]]|] store];
    simpl; [|discriminate..].
  intros [= <- <-]. split; [apply rethrow_cases|apply last_snoc].
Qed.

Lemma rejections_are_one_of_four_witness :
  (AccessDenied = ServiceUnavailable ∨ AccessDenied = AccessDenied
   ∨ AccessDenied = RequestTimeout ∨ AccessDenied = GenerationFailed)
  ∧ last [Post; LogError "Gemini API error:"]
    = Some (LogError "Gemini API error:").
Proof.
  apply (rejections_are_one_of_four 1000 1000 [Rejected Sample.forbidden] []).
  vm_compute. reflexivity.
Defined.

(** X7. An answer with a status other than 200 is neither counted nor
    delayed: the loop posts again at once, so [n] such answers followed by
    a well-formed 200 make [n + 1] transport calls with nothing slept,
    whatever [n] is; [maxRetries] does not bound them. *)
Theorem other_statuses_reposted now now' requests (others : list Response) r answer :
  (canMakeRequest now requests).1 = true →
  Forall (λ other, status other ≠ 200) others →
  status r = 200 → suggestions (data r) = Some answer →
  ∃ events,
    (generateProjectSuggestions now now'
       ((Resolved <$> others) ++ [Resolved r]) requests).1
    = Some (events, inr answer)
    ∧ attempts events = S (length others)
    ∧ slept events = 0.
Proof.
  intros Hadm Hothers Hs Hbody.
  assert (Hloop : ∀ response, ∃ events,
    retryLoop ((Resolved <$> others) ++ [Resolved r]) 0 response
    = Some (events, inr (Some r))
    ∧ attempts events = S (length others) ∧ slept events = 0).
  { induction Hothers as [|other others Hother _ IH]; intros response.
    - exists [Post]. split; [|done].
      apply retryLoop_success; [apply three_open|done].
    - destruct (IH (Some other)) as (events & Hrun & Hn & Hz).
      exists (Post :: events).
      rewrite fmap_cons, <- app_comm_cons. cbn [retryLoop].
      change (0 <? maxRetries)%nat with true. cbn iota.
      apply Z.eqb_neq in Hother as ->.
      rewrite Hrun. simpl. by rewrite Hn, Hz. }
  destruct (Hloop None) as (events & Hrun & Hn & Hz).
  exists (events ++ [LogInfo]).
  unfold generateProjectSuggestions. rewrite attempt_admitted by done.
  rewrite Hrun. unfold afterLoop. rewrite Hs, Hbody. simpl.
  split; [done|]. rewrite attempts_app, slept_app, Hn, Hz. simpl. split; lia.
Qed.

Lemma other_statuses_reposted_witness :
  ∃ events,
    (generateProjectSuggestions 1000 1000
       ((Resolved <$> replicate 5 {| status := 204; data := data Sample.answer |})
        ++ [Resolved Sample.answer]) []).1
    = Some (events, inr "Use our cloud services."%string)
    ∧ attempts events = 6%nat
    ∧ slept events = 0.
Proof.
  apply (other_statuses_reposted 1000 1000 []
           (replicate 5 {| status := 204; data := data Sample.answer |})
           Sample.answer).
  - reflexivity.
  - apply Forall_replicate. simpl. discriminate.
  - reflexivity.
  - reflexivity.
Defined.

(** X8. A 200 answer whose body lacks the expected parts is not retried:
    after that single transport call the caller gets the generic error. *)
Theorem malformed_answer_not_retried now now' requests r rest :
  (canMakeRequest now requests).1 = true →
  status r = 200 → suggestions (data r) = None →
  (generateProjectSuggestions now now' (Resolved r :: rest) requests).1
  = Some ([Post; LogError "Unexpected Gemini API response structure:";
           LogError "Gemini API error:"], inl GenerationFailed).
Proof.
  intros Hadm Hs Hbody.
  unfold generateProjectSuggestions. rewrite attempt_admitted by done.
  rewrite retryLoop_success by (apply three_open || done).
  unfold afterLoop. by rewrite Hs, Hbody.
Qed.

Lemma malformed_answer_not_retried_witness :
  (generateProjectSuggestions 1000 1000
     [Resolved {| status := 200; data := {| candidates := Some [] |} |};
      Resolved Sample.answer] []).1
  = Some ([Post; LogError "Unexpected Gemini API response structure:";
           LogError "Gemini API error:"], inl GenerationFailed).
Proof.
  apply (malformed_answer_not_retried 1000 1000 []
           {| status := 200; data := {| candidates := Some [] |} |}
           [Resolved Sample.answer]); reflexivity.
Defined.

(** X9. The failure that is not retried is always the last transport
    call: after [k < 3] retried failures (429), a failure of another kind
    ends the run after [k + 1] calls with the error the outer [catch]
    makes of it. *)
Theorem fatal_failure_ends_run now now' requests prefix e rest :
  (canMakeRequest now requests).1 = true →
  Forall transient prefix →
  (length prefix < maxRetries)%nat →
  ¬ transient e →
  ∃ events,
    (generateProjectSuggestions now now'
       ((Rejected <$> prefix) ++ Rejected e :: rest) requests).1
    = Some (events, inl (rethrow e))
    ∧ attempts events = S (length prefix).
Proof.
  intros Hadm Hall Hlen Hfatal.
  destruct (retryLoop_stops_at_fatal prefix e rest 0 None Hall ltac:(lia) Hfatal)
    as (events & Hrun & Hn).
  exists ((events ++ [Post]) ++ [LogError "Gemini API error:"]).
  unfold generateProjectSuggestions. rewrite attempt_admitted by done.
  rewrite Hrun. simpl. split; [done|].
  rewrite !attempts_app, Hn. simpl. lia.
Qed.

Lemma fatal_failure_ends_run_witness :
  ∃ events,
    (generateProjectSuggestions 1000 1000
       ((Rejected <$> [Sample.tooManyRequests; Sample.tooManyRequests])
        ++ Rejected Sample.timedOut :: [Resolved Sample.answer]) []).1
    = Some (events, inl (rethrow Sample.timedOut))
    ∧ attempts events = 3%nat.
Proof.
  apply (fatal_failure_ends_run 1000 1000 []
           [Sample.tooManyRequests; Sample.tooManyRequests] Sample.timedOut
           [Resolved Sample.answer]).
  - reflexivity.
  - repeat constructor.
  - unfold maxRetries. simpl. lia.
  - unfold transient. simpl. discriminate.
Defined.

End ExecutorFacts.

(** ** Properties of the single-call functions and of the route *)

Module CompletionsFacts.
Import RateLimiter Gemini Completions Contact GeminiFacts ExecutorFacts.
Local Open Scope Z_scope.

(** X10. The single-call functions return a text exactly when
    [generateProjectSuggestions] would extract one from the same answer:
    the status is 200 and the first candidate has a first part. On a 200
    answer whose first candidate lacks its content or its parts they throw
    a [TypeError] where the checked reading finds nothing. *)
Theorem readAnswer_agrees response :
  (∀ answer, readAnswer response = inr answer
             ↔ status response = 200 ∧ suggestions (data response) = Some answer)
  ∧ (readAnswer response = inl TypeError
     ↔ status response = 200
       ∧ suggestions (data response) = None
       ∧ ∃ candidate rest, candidates (data response) = Some (candidate :: rest)).
Proof.
  unfold readAnswer, suggestions.
  destruct (Z.eqb_spec (status response) 200) as [Hs|Hs];
    [destruct (candidates (data response)) as [[|candidate rest]|];
       [| destruct (content candidate) as [c|];
          [destruct (parts c) as [[|part more]|]|] |]|];
    repeat (split || intro);
    repeat match goal with
           | H : _ ∧ _ |- _ => destruct H
           | H : ∃ _, _ |- _ => destruct H
           end;
    simplify_eq; eauto 6.
Qed.

(** X11. Unlike [generateProjectSuggestions], the three single-call
    functions let the error of the rate-limit guard through unchanged: a
    refused call is rejected with the [Rate limit exceeded] error and its
    number of seconds, and no transport call is made. *)
Theorem rate_limit_error_reaches_caller contentType now now' outcome requests :
  (canMakeRequest now requests).1 = false →
  let store := (canMakeRequest now requests).2 in
  let thrown :=
    Raised (rateLimitError
              (RateLimitExceeded (ceil_div (getRetryDelay now' store) 1000))) in
  generateContent contentType now now' outcome requests
  = ([LogError "Content generation error:"], inl thrown, store)
  ∧ analyzeTechStack now now' outcome requests
    = ([LogError "Tech stack analysis error:"], inl thrown, store)
  ∧ generateSEOContent now now' outcome requests
    = ([LogError "SEO content generation error:"], inl thrown, store).
Proof.
  intros Href. unfold generateContent, analyzeTechStack, generateSEOContent, guard.
  destruct (canMakeRequest now requests) as [ok store']. simpl in Href. by subst ok.
Qed.

Lemma rate_limit_error_reaches_caller_witness :
  (generateContent "blog-post" 60500 60501 (Resolved Sample.answer)
     (after Sample.minute)).1.2
  = inl (Raised (newError "Rate limit exceeded. Please try again in 1 seconds.")).
Proof.
  rewrite (proj1 (rate_limit_error_reaches_caller "blog-post" 60500 60501
                    (Resolved Sample.answer) (after Sample.minute) eq_refl)).
  vm_compute. reflexivity.
Defined.

(** X12. [generateContent] checks the content type after the admission
    check: a call with an unknown content type that the limiter admits is
    rejected with [Invalid content type] without any transport call, and
    its timestamp is recorded all the same. *)
Theorem invalid_content_type_spends_a_slot contentType now now' outcome requests :
  (canMakeRequest now requests).1 = true →
  contentType ∉ ["blog-post"; "service-description"; "case-study"]%string →
  generateContent contentType now now' outcome requests
  = ([LogError "Content generation error:"],
     inl (Raised (newError "Invalid content type")),
     prune now requests ++ [now]).
Proof.
  intros Hadm Hunknown. unfold generateContent, guard.
  unfold canMakeRequest in *.
  destruct (maxRequests <=? length (prune now requests))%nat; [discriminate|].
  by rewrite bool_decide_eq_false_2.
Qed.

Lemma invalid_content_type_spends_a_slot_witness :
  generateContent "tweet" 1000 1000 (Resolved Sample.answer) []
  = ([LogError "Content generation error:"],
     inl (Raised (newError "Invalid content type")), [1000]).
Proof.
  apply (invalid_content_type_spends_a_slot "tweet" 1000 1000
           (Resolved Sample.answer) []).
  - reflexivity.
  - apply (bool_decide_unpack _). vm_compute. exact I.
Defined.

Lemma call_once label outcome :
  attempts (call label outcome).1 = 1%nat
  ∧ slept (call label outcome).1 = 0
  ∧ (call label outcome).2
    = match outcome with
      | Rejected error => inl (Raised error)
      | Resolved response => readAnswer response
      end.
Proof.
  unfold call. destruct outcome as [r|e]; [|done].
  by destruct (readAnswer r).
Qed.

(** X13. The single-call functions never retry: when the limiter admits
    the call, [analyzeTechStack], [generateSEOContent] and, for each of
    its three content types, [generateContent] make exactly one transport
    call and sleep nothing, whatever the transport answers; they record
    the one timestamp of the admission check; a rejection of the
    transport, a 429 included, is thrown to the caller as it is, and an
    answer is read once. *)
Theorem single_call_never_retries contentType now now' outcome requests :
  (canMakeRequest now requests).1 = true →
  contentType ∈ ["blog-post"; "service-description"; "case-study"]%string →
  let result :=
    match outcome with
    | Rejected error => inl (Raised error)
    | Resolved response => readAnswer response
    end in
  ∀ run,
    run ∈ [analyzeTechStack now now' outcome requests;
           generateSEOContent now now' outcome requests;
           generateContent contentType now now' outcome requests] →
    attempts run.1.1 = 1%nat
    ∧ slept run.1.1 = 0
    ∧ run.1.2 = result
    ∧ run.2 = prune now requests ++ [now].
Proof.
  intros Hadm Htype result run Hrun.
  assert (Hstore : canMakeRequest now requests = (true, prune now requests ++ [now])).
  { unfold canMakeRequest in *.
    by destruct (maxRequests <=? length (prune now requests))%nat. }
  assert (Hcall : ∀ label,
    attempts (call label outcome, prune now requests ++ [now]).1.1 = 1%nat
    ∧ slept (call label outcome, prune now requests ++ [now]).1.1 = 0
    ∧ (call label outcome, prune now requests ++ [now]).1.2 = result
    ∧ (call label outcome, prune now requests ++ [now]).2
      = prune now requests ++ [now]).
  { intros label. destruct (call_once label outcome) as (Hn & Hz & Hres).
    simpl. by rewrite Hn, Hz, Hres. }
  rewrite !elem_of_cons, elem_of_nil in Hrun.
  destruct Hrun as [->|[->|[->|[]]]];
    unfold analyzeTechStack, generateSEOContent, generateContent, guard;
    rewrite Hstore; cbv beta iota.
  - apply Hcall.
  - apply Hcall.
  - rewrite bool_decide_eq_true_2 by done. apply Hcall.
Qed.

Lemma single_call_never_retries_witness :
  let run := generateContent "case-study" 1000 1000
               (Rejected Sample.tooManyRequests) [] in
  attempts run.1.1 = 1%nat
  ∧ slept run.1.1 = 0
  ∧ run.1.2 = inl (Raised Sample.tooManyRequests)
  ∧ run.2 = prune 1000 [] ++ [1000].
Proof.
  apply (single_call_never_retries "case-study" 1000 1000
           (Rejected Sample.tooManyRequests) []).
  - reflexivity.
  - apply (bool_decide_unpack _). vm_compute. exact I.
  - rewrite !elem_of_cons. right. right. left. reflexivity.
Defined.

(** X14. The route answers from the run of [generateProjectSuggestions]
    and hides which failure occurred: a run that returns a text is
    answered 200 with that text; a run that is rejected is answered 500
    with one fixed message, after one more error line in the log, the
    [error] field being absent outside development and, in development,
    the message of the rejection, which is one of the four messages of
    [generateProjectSuggestions]; the store of the limiter is the one the
    run left. *)
Theorem suggestions_route_answers development now now' script requests :
  let run := generateProjectSuggestions now now' script requests in
  let route := suggestionsRoute development now now' script requests in
  route.2 = run.2
  ∧ (∀ events suggestions,
       run.1 = Some (events, inr suggestions) →
       route.1
       = Some (events,
               {| reply_status := 200; success := true; reply_message := None;
                  reply_suggestions := Some suggestions; reply_error := None |}))
  ∧ (∀ events error,
       run.1 = Some (events, inl error) →
       route.1
       = Some (events ++ [LogError "Project suggestions error:"],
               {| reply_status := 500; success := false;
                  reply_message :=
                    Some "Failed to generate suggestions. Please try again later."%string;
                  reply_suggestions := None;
                  reply_error :=
                    if development then Some (message error) else None |})
       ∧ (error = ServiceUnavailable ∨ error = AccessDenied
          ∨ error = RequestTimeout ∨ error = GenerationFailed))
  ∧ (run.1 = None → route.1 = None).
Proof.
  intros run route. subst route. unfold suggestionsRoute. fold run.
  pose proof (rejected_run_cases now now' script requests) as Hcases. fold run in Hcases.
  destruct run as [[[events' [error|answer]]|] store]; simpl in *.
  - split; [done|]. split; [discriminate|]. split; [|discriminate].
    intros events error' [= <- <-]. split; [done|]. by eapply Hcases.
  - split; [done|]. split; [|split; discriminate].
    by intros events suggestions [= <- <-].
  - split; [done|]. split; [discriminate|]. split; [discriminate|done].
Qed.

(** C4, where the code departs from it. From the initial empty store,
    [maxRequests] (60) calls whose clock readings lie in one 60-second
    window are all admitted and one more call in that window is refused;
    the guard then throws the rate-limit error with the delay until the
    oldest recorded call leaves the window, rounded up to whole seconds,
    and the single-call functions let that error through to their caller;
    but [generateProjectSuggestions] answers the refused call with its
    generic error, without the rate-limit error and its seconds. As soon
    as a recorded call has aged out of the window, a call is admitted
    again. *)
Theorem rate_window_capacity t0 (times : list Z) (next now' : Z) :
  length times = maxRequests →
  Forall (λ t, t0 ≤ t < t0 + windowMs) times →
  t0 ≤ next < t0 + windowMs →
  head times ≠ Some 0 →
  (issue times []).1 = replicate maxRequests true
  ∧ canMakeRequest next (after times) = (false, after times)
  ∧ (∃ oldest secs,
       head times = Some oldest
       ∧ guard next now' (after times)
         = (Some (RateLimitExceeded secs), after times)
       ∧ 1000 * (secs - 1) < windowMs - (now' - oldest) ≤ 1000 * secs
       ∧ (∀ outcome,
            (analyzeTechStack next now' outcome (after times)).1.2
            = inl (Raised (rateLimitError (RateLimitExceeded secs))))
       ∧ (∀ script,
            (generateProjectSuggestions next now' script (after times)).1
            = Some ([LogError "Gemini API error:"], inl GenerationFailed)))
  ∧ (∀ now t, t ∈ times → windowMs ≤ now - t →
       (canMakeRequest now (after times)).1 = true).
Proof.
  intros Hlen Hwin Hnext Hhead.
  destruct (RateLimiterFacts.full_window_at_guard t0 times next now'
              Hlen Hwin Hnext Hhead)
    as (Hall & Hrej & (oldest & Hold & _ & Hguard & _) & Hagain).
  split; [done|]. split; [done|]. split; [|done].
  exists oldest, (ceil_div (windowMs - (now' - oldest)) 1000).
  split; [done|]. split; [done|]. split; [|split].
  - unfold ceil_div. Z.div_mod_to_equations. lia.
  - intros outcome. unfold analyzeTechStack. by rewrite Hguard.
  - intros script. rewrite refused_call_fails_generically; [done|].
    by rewrite Hrej.
Qed.

Lemma rate_window_capacity_witness :
  (issue Sample.minute []).1 = replicate maxRequests true
  ∧ canMakeRequest 60500 (after Sample.minute) = (false, after Sample.minute)
  ∧ (∃ oldest secs,
       head Sample.minute = Some oldest
       ∧ guard 60500 60501 (after Sample.minute)
         = (Some (RateLimitExceeded secs), after Sample.minute)
       ∧ 1000 * (secs - 1) < windowMs - (60501 - oldest) ≤ 1000 * secs
       ∧ (∀ outcome,
            (analyzeTechStack 60500 60501 outcome (after Sample.minute)).1.2
            = inl (Raised (rateLimitError (RateLimitExceeded secs))))
       ∧ (∀ script,
            (generateProjectSuggestions 60500 60501 script (after Sample.minute)).1
            = Some ([LogError "Gemini API error:"], inl GenerationFailed)))
  ∧ (∀ now t, t ∈ Sample.minute → windowMs ≤ now - t →
       (canMakeRequest now (after Sample.minute)).1 = true).
Proof.
  apply (rate_window_capacity 1000 Sample.minute 60500 60501).
  - reflexivity.
  - apply (bool_decide_unpack _). vm_compute. exact I.
  - unfold windowMs. lia.
  - vm_compute. discriminate.
Defined.

(** The failing input of C4: the 61st call of a minute, through
    [generateProjectSuggestions] and through a sibling. *)
Example refused_call_of_the_minute :
  (generateProjectSuggestions 60500 60501 [Resolved Sample.answer]
     (after Sample.minute)).1
  = Some ([LogError "Gemini API error:"],
          inl (newError
                 "Failed to generate project suggestions. Please try again later."))
  ∧ (analyzeTechStack 60500 60501 (Resolved Sample.answer) (after Sample.minute)).1.2
    = inl (Raised (newError "Rate limit exceeded. Please try again in 1 seconds.")).
Proof. split; vm_compute; reflexivity. Qed.

End CompletionsFacts.

(** ** More on the session routes and middlewares *)

Module AccountFacts.
Import Jwt Session Account SessionFacts.
Local Open Scope Z_scope.

(** A query whose filter fixes the [_id] is a lookup. *)
Lemma findOne_keyed filter key w :
  (∀ id user, filter id user = true → id = key) →
  findOne filter w
  = (inr (match users w !! key with
          | Some user => if filter key user then Some (key, user) else None
          | None => None
          end), w).
Proof.
  intros Hkey. unfold findOne. do 2 f_equal.
  destruct (List.find _ _) as [[id user]|] eqn:Hfind.
  - apply List.find_some in Hfind as [Hin Hacc]. simpl in Hacc.
    apply list_elem_of_In, elem_of_map_to_list in Hin.
    pose proof (Hkey id user Hacc) as ->. by rewrite Hin, Hacc.
  - destruct (users w !! key) as [user|] eqn:Hlook; [|done].
    apply elem_of_map_to_list, list_elem_of_In in Hlook.
    apply (List.find_none _ _ Hfind) in Hlook. simpl in Hlook. by rewrite Hlook.
Qed.

(** The handler of [/refresh] on parsed cookies whose token verifies,
    spelled out. *)
Lemma refresh_verified env now tok w decoded :
  verify tok (JWT_REFRESH_SECRET env) now = inr decoded →
  refresh env now (Some (Some tok)) w
  = (inr (match users w !! userId decoded with
          | Some user =>
              if bool_decide (tok ∈ token <$> refreshTokens user) && isActive user
              then {| status := 200;
                      body := Refreshed
                                (generateAuthToken env now (userId decoded) user)
                                (profile (userId decoded) user);
                      cookie := NoCookie |}
              else fail 401 "Invalid refresh token"
          | None => fail 401 "Invalid refresh token"
          end), w).
Proof.
  intros Hv. unfold refresh, try_catch, bind, jwt_verify.
  rewrite (verify_not_missing tok (JWT_REFRESH_SECRET env) now)
    by (rewrite Hv; discriminate).
  rewrite Hv. unfold ret at 1. rewrite (findOne_keyed _ (userId decoded)).
  - destruct (users w !! userId decoded) as [user|]; [|done].
    rewrite bool_decide_eq_true_2 by done. simpl.
    by destruct (bool_decide _ && isActive user).
  - intros id user Hacc. apply andb_prop in Hacc as [Hacc _].
    apply andb_prop in Hacc as [Hid _]. by apply bool_decide_eq_true_1 in Hid.
Qed.


Lemma findOne_unique filter id user w :
  users w !! id = Some user →
  filter id user = true →
  (∀ id' user', users w !! id' = Some user' → filter id' user' = true → id' = id) →
  findOne filter w = (inr (Some (id, user)), w).
Proof.
  intros Hlook Hacc Hunique. unfold findOne. do 2 f_equal.
  destruct (List.find _ _) as [[id' user']|] eqn:Hfind.
  - apply List.find_some in Hfind as [Hin Hacc']. simpl in Hacc'.
    apply list_elem_of_In, elem_of_map_to_list in Hin.
    pose proof (Hunique id' user' Hin Hacc') as ->. congruence.
  - apply elem_of_map_to_list, list_elem_of_In in Hlook.
    apply (List.find_none _ _ Hfind) in Hlook. simpl in Hlook. congruence.
Qed.

(** The document [/login] stores for principal [id]: one more refresh
    token, signed at [now] for seven days, and [lastLogin] set. *)
Lemma login_run bcrypt_compare env now w id user password' :
  users w !! id = Some user →
  isActive user = true →
  (∀ id' user', users w !! id' = Some user' →
                email user' = email user → id' = id) →
  bcrypt_compare password' (password user) = true →
  login bcrypt_compare env now (email user) password' w
  = (inr {| status := 200;
            body := LoggedIn "Login successful" (generateAuthToken env now id user)
                      (profile id
                         (set_lastLogin (Some now)
                            (generateRefreshToken env now id user).2));
            cookie := SetRefreshToken (generateRefreshToken env now id user).1 |},
     {| users := <[id := set_lastLogin (Some now)
                           (generateRefreshToken env now id user).2]> (users w);
        logged := logged w ++ [("info"%string,
                                "User logged in: " +:+ email user)] |}).
Proof.
  intros Hlook Hactive Hunique Hpw. unfold login, try_catch, bind.
  rewrite (findOne_unique _ id user); [| done | |].
  - unfold comparePassword. by rewrite Hpw.
  - by rewrite bool_decide_eq_true_2.
  - intros id' user' Hlook' Hacc. apply andb_prop in Hacc as [Hmail _].
    apply bool_decide_eq_true_1 in Hmail. by eapply Hunique.
Qed.


Lemma sample_email_unique_alice id' user' :
  users Sample.revoked !! id' = Some user' →
  email user' = email (Sample.alice []) → id' = 1%positive.
Proof.
  simpl. intros Hlook Hmail.
  apply (lookup_insert_Some (M := gmap positive)) in Hlook
    as [[<- _]|[_ Hlook]]; [done|].
  apply (lookup_singleton_Some (M := gmap positive)) in Hlook as [_ <-].
  discriminate Hmail.
Defined.


(** X18. As the server is set up, the refresh token that a successful
    login sets in the cookie is never accepted: although it verifies for
    seven days and is listed in the store of the principal, [/refresh]
    answers 401 [Invalid refresh token] to a request that carries it, at
    every later time, the moment of the login included. *)
Theorem login_then_refresh bcrypt_compare env now w id user password' later :
  users w !! id = Some user →
  isActive user = true →
  (∀ id' user', users w !! id' = Some user' →
                email user' = email user → id' = id) →
  bcrypt_compare password' (password user) = true →
  let run := login bcrypt_compare env now (email user) password' w in
  ∃ refreshToken response stored,
    run.1 = inr response
    ∧ status response = 200
    ∧ cookie response = SetRefreshToken refreshToken
    ∧ users run.2 !! id = Some stored
    ∧ isActive stored = true
    ∧ refreshToken ∈ token <$> refreshTokens stored
    ∧ verify refreshToken (JWT_REFRESH_SECRET env) later
      = (if bool_decide (later / 1000 < now / 1000 + 604800)
         then inr {| userId := id; claim_email := None; claim_role := None |}
         else inl TokenExpiredError)
    ∧ (refresh env later (req_cookies server_cookieParser (Some refreshToken))
         run.2).1
      = inr (fail 401 "Invalid refresh token").
Proof.
  intros Hlook Hactive Hunique Hpw run. subst run.
  rewrite (login_run _ _ _ _ id user) by done. simpl.
  set (refreshToken := sign _ (JWT_REFRESH_SECRET env) 604800 now).
  eexists refreshToken, _, _. split; [reflexivity|]. split; [done|].
  split; [done|]. split; [apply lookup_insert_eq|]. split; [done|]. split.
  - simpl. rewrite fmap_app. apply elem_of_app. right. simpl.
    by apply list_elem_of_singleton.
  - split; [|done].
    unfold refreshToken, sign, verify. rewrite bool_decide_eq_true_2 by done.
    case_bool_decide as Hfresh.
    + by apply Z.leb_gt in Hfresh as ->.
    + by apply Z.nlt_ge, Z.leb_le in Hfresh as ->.
Qed.

Lemma login_then_refresh_witness :
  let run := login Sample.bcrypt_compare Sample.env Sample.issued "a@b.com"
               "Secret#123" Sample.revoked in
  ∃ refreshToken response stored,
    run.1 = inr response
    ∧ status response = 200
    ∧ cookie response = SetRefreshToken refreshToken
    ∧ users run.2 !! 1%positive = Some stored
    ∧ isActive stored = true
    ∧ refreshToken ∈ token <$> refreshTokens stored
    ∧ verify refreshToken (JWT_REFRESH_SECRET Sample.env) (Sample.issued + 1000)
      = (if bool_decide ((Sample.issued + 1000) / 1000
                         < Sample.issued / 1000 + 604800)
         then inr {| userId := 1; claim_email := None; claim_role := None |}
         else inl TokenExpiredError)
    ∧ (refresh Sample.env (Sample.issued + 1000)
         (req_cookies server_cookieParser (Some refreshToken)) run.2).1
      = inr (fail 401 "Invalid refresh token").
Proof.
  apply (login_then_refresh Sample.bcrypt_compare Sample.env Sample.issued
           Sample.revoked 1 (Sample.alice []) "Secret#123" (Sample.issued + 1000)).
  - reflexivity.
  - reflexivity.
  - apply sample_email_unique_alice.
  - reflexivity.
Defined.

(** Tokens left in a store by [$pull]. *)
Lemma pull_tokens tok user other :
  other ∈ token <$> refreshTokens (pull tok user)
  ↔ other ∈ token <$> refreshTokens user ∧ other ≠ tok.
Proof.
  unfold pull. simpl. rewrite !list_elem_of_fmap. split.
  - intros (entry & -> & Hin). apply list_elem_of_filter in Hin as [Hne Hin].
    split; [by exists entry|done].
  - intros [(entry & -> & Hin) Hne]. exists entry. split; [done|].
    by apply list_elem_of_filter.
Qed.

(** X19. As the server is set up, [/logout] revokes nothing: for every
    authenticated request, whatever token its [Cookie] header carries,
    reading [req.cookies.refreshToken] throws, the [catch] logs the error
    and answers 500 [Logout failed], no cookie is cleared, and the
    collection is left as it was, so a refresh token listed before the
    call is still listed after it. *)
Theorem logout_fails_as_mounted user sent w :
  let run := logout user (req_cookies server_cookieParser sent) w in
  run.1 = inr {| status := 500; body := Failure "Logout failed";
                 cookie := NoCookie |}
  ∧ users run.2 = users w
  ∧ logged run.2 = logged w ++ [("error"%string, "Logout error:"%string)]
  ∧ (∀ id stored tok,
       users w !! id = Some stored → tok ∈ token <$> refreshTokens stored →
       ∃ kept, users run.2 !! id = Some kept
               ∧ tok ∈ token <$> refreshTokens kept).
Proof.
  intros run. subst run. unfold server_cookieParser, req_cookies.
  repeat split. intros id stored tok Hlook Hin. by exists stored.
Qed.

(** X20. The [auth] middleware lets a request through exactly when its
    token verifies under [JWT_SECRET] and the principal it names exists
    and is active; [req.user] then carries the e-mail, role and name of
    the stored document, whatever claims the token holds. *)
Theorem auth_passes_iff env now header w user :
  (auth env now header w).1 = inr (Next user)
  ↔ ∃ accessToken decoded stored,
      header = Some accessToken
      ∧ verify accessToken (JWT_SECRET env) now = inr decoded
      ∧ users w !! userId decoded = Some stored
      ∧ isActive stored = true
      ∧ user = {| req_userId := userId decoded; req_email := email stored;
                  req_role := role stored; req_name := name stored |}.
Proof.
  unfold auth, try_catch, bind, jwt_verify, findById, logger, ret.
  destruct header as [accessToken|]; cbv beta iota.
  2:{ split; [discriminate|]. by intros (? & ? & ? & ? & _). }
  destruct (missing (Some accessToken)) eqn:Hm.
  { split; [discriminate|]. intros (? & decoded & ? & [= <-] & Hv & _).
    by destruct accessToken as [|[]]. }
  destruct (verify accessToken (JWT_SECRET env) now) as [e|decoded] eqn:Hv.
  { split; [by destruct e|]. intros (? & ? & ? & [= <-] & Hv' & _). congruence. }
  destruct (users w !! userId decoded) as [stored|] eqn:Hlook; simpl.
  2:{ split; [discriminate|].
      intros (? & ? & ? & [= <-] & Hv' & Hlook' & _). congruence. }
  destruct (isActive stored) eqn:Hactive; simpl.
  - split.
    + intros [= <-]. by exists accessToken, decoded, stored.
    + intros (? & ? & ? & [= <-] & Hv' & Hlook' & _ & ->). congruence.
  - split; [discriminate|].
    intros (? & ? & ? & [= <-] & Hv' & Hlook' & Hact & _). congruence.
Qed.

(** X21. When the two signing secrets differ, a token of one kind is
    never accepted in place of the other: the [auth] middleware answers a
    refresh token with 401 [Invalid token.], and [/refresh] answers an
    access token with 401 [Invalid refresh token], whoever they were
    issued to, whenever they are presented and whether or not the cookies
    of the request are parsed. *)
Theorem token_kinds_not_interchangeable parser env id user since now w :
  JWT_SECRET env ≠ JWT_REFRESH_SECRET env →
  (auth env now (Some (generateRefreshToken env since id user).1) w).1
  = inr (Respond (fail 401 "Invalid token."))
  ∧ (refresh env now
       (req_cookies parser (Some (generateAuthToken env since id user))) w).1
    = inr (fail 401 "Invalid refresh token").
Proof.
  intros Hdiff. split.
  - unfold auth, try_catch, bind, jwt_verify, generateRefreshToken, sign, verify.
    simpl. by rewrite bool_decide_eq_false_2.
  - apply refresh_any_parser.
    eapply (refresh_throws env now w _ JsonWebTokenError); [done|].
    unfold generateAuthToken, sign, verify. by rewrite bool_decide_eq_false_2.
Qed.

Lemma token_kinds_not_interchangeable_witness :
  (auth Sample.env (Sample.issued + 1000) (Some Sample.aliceRefresh) Sample.world).1
  = inr (Respond (fail 401 "Invalid token."))
  ∧ (refresh Sample.env (Sample.issued + 1000)
       (req_cookies true (Some Sample.aliceAccess)) Sample.world).1
    = inr (fail 401 "Invalid refresh token").
Proof.
  apply (token_kinds_not_interchangeable true Sample.env 1 (Sample.alice [])
           Sample.issued (Sample.issued + 1000) Sample.world).
  simpl. discriminate.
Defined.

(** X22. [optionalAuth] never answers and never changes the world: it
    passes on [req.user] exactly when [auth] would let the request
    through, with the same value, and passes on nothing otherwise. *)
Theorem optionalAuth_mirrors_auth env now header w :
  optionalAuth env now header w
  = (inr (match (auth env now header w).1 with
          | inr (Next user) => Some user
          | _ => None
          end), w).
Proof.
  unfold optionalAuth, auth, try_catch, bind, jwt_verify, findById, logger, ret.
  destruct header as [accessToken|]; [|done].
  destruct (missing (Some accessToken)); [done|].
  destruct (verify accessToken (JWT_SECRET env) now) as [[]|decoded]; [done..|].
  destruct (users w !! userId decoded) as [stored|]; [|done].
  by destruct (isActive stored).
Qed.



End AccountFacts.
